(** * Lanczos on the GPU: the iteration engine of [src/lanczos.cu]

    A shallow embedding of the host routine [lanczos] together with the
    kernels and the library calls it uses, the properties of the engine
    that the design document states about it, and further properties of
    the kernels, their launches and the loop.

    Conventions.
    - [double] is IEEE binary64, embedded as Rocq's primitive [float];
      [cuDoubleComplex] is a pair of doubles, as in [cuComplex.h].
    - A [thrust] vector or a [cudaMalloc]ed array is a [list]; an access
      outside the buffer is undefined behaviour in C++ and is modelled
      by [None].
    - Sizes and indices ([dim], [max_Iter], [num_Eig], [iter]) are
      natural numbers: negative sizes make the allocations throw before
      anything is computed, and are left out.  They are C [int]s: an
      argument or a product of two of them above [INT_MAX] is signed
      overflow, undefined like an access outside a buffer, and is
      modelled by [None] as well.  An allocation of a size that an
      [int] holds is taken to succeed. *)

From Stdlib Require Import Floats ZArith.
From stdpp Require Import base option list.

(** ** Scalars *)

Abbreviation double := float (only parsing).

(** [cuComplex.h]: [cuDoubleComplex] and its inline arithmetic. *)
Abbreviation cuDoubleComplex := (double * double)%type (only parsing).

Definition make_cuDoubleComplex (r i : double) : cuDoubleComplex := (r, i).
Definition cuCreal (x : cuDoubleComplex) : double := fst x.
Definition cuCimag (x : cuDoubleComplex) : double := snd x.

Definition cuConj (x : cuDoubleComplex) : cuDoubleComplex :=
  make_cuDoubleComplex (cuCreal x) (- cuCimag x)%float.

Definition cuCadd (x y : cuDoubleComplex) : cuDoubleComplex :=
  make_cuDoubleComplex (cuCreal x + cuCreal y)%float
                       (cuCimag x + cuCimag y)%float.

Definition cuCsub (x y : cuDoubleComplex) : cuDoubleComplex :=
  make_cuDoubleComplex (cuCreal x - cuCreal y)%float
                       (cuCimag x - cuCimag y)%float.

Definition cuCmul (x y : cuDoubleComplex) : cuDoubleComplex :=
  make_cuDoubleComplex
    (cuCreal x * cuCreal y - cuCimag x * cuCimag y)%float
    (cuCreal x * cuCimag y + cuCimag x * cuCreal y)%float.

Definition cuCdiv (x y : cuDoubleComplex) : cuDoubleComplex :=
  let s := (abs (cuCreal y) + abs (cuCimag y))%float in
  let oos := (1 / s)%float in
  let ars := (cuCreal x * oos)%float in
  let ais := (cuCimag x * oos)%float in
  let brs := (cuCreal y * oos)%float in
  let bis := (cuCimag y * oos)%float in
  let s := (brs * brs + bis * bis)%float in
  let oos := (1 / s)%float in
  make_cuDoubleComplex ((ars * brs + ais * bis) * oos)%float
                       ((ais * brs - ars * bis) * oos)%float.

Definition czero : cuDoubleComplex := make_cuDoubleComplex 0%float 0%float.

(** ** Buffers *)

(** [a[i] = x] on a raw array or through [thrust]'s unchecked
    [operator[]]. *)
Definition write {A} (a : list A) (i : nat) (x : A) : option (list A) :=
  if decide (i < length a) then Some (<[i := x]> a) else None.

(** [cudaMemcpy(dst + off, src, n * sizeof(T), ...)]. *)
Definition cudaMemcpy {A} (dst : list A) (off n : nat) (src : list A)
  : option (list A) :=
  if decide (off + n <= length dst /\ n <= length src)
  then Some (take off dst ++ take n src ++ drop (off + n) dst)
  else None.

(** [thrust::sort(first, last)] on doubles: ascending for [operator<]. *)
Fixpoint sort_insert (x : double) (l : list double) : list double :=
  match l with
  | [] => [x]
  | h :: t => if (x <? h)%float then x :: l else h :: sort_insert x t
  end.

Definition thrust_sort (l : list double) : list double :=
  foldr sort_insert [] l.

(** [thrust::copy(src.begin(), src.begin() + n, dst.begin())]. *)
Definition thrust_copy {A} (src : list A) (n : nat) (dst : list A)
  : option (list A) :=
  if decide (n <= length src /\ n <= length dst)
  then Some (take n src ++ drop n dst)
  else None.

(** ** Integers *)

(** [int] has 32 bits. *)
Definition INT_MAX : Z := 2147483647.

(** Whether an [int] holds the value of a non-negative expression. *)
Definition fits_int (z : Z) : bool := (z <=? INT_MAX)%Z.

(** A condition without which the behaviour is undefined. *)
Definition check (b : bool) : option unit := if b then Some () else None.

(** Lines 146-147 of [lanczos.cu]: threads per block and blocks per
    grid. *)
Definition tpb : nat := 256.
Definition bpg (dim : nat) : nat := (dim + tpb - 1) / tpb.

(** ** Collaborators: cuSPARSE and cuBLAS

    The library routines are external to the repository; they are
    modelled by their contracts (section 6 of the design document), with
    sums accumulated left to right. *)

(** The operator in coordinate form, as [lanczos] receives it. *)
Record hamiltonian : Type := Hamiltonian {
  num_Elem : nat;
  d_H_vals : list cuDoubleComplex;
  d_H_rows : list nat;
  d_H_cols : list nat;
}.

(** Whether every stored entry of the operator lies inside the
    [dim] x [dim] block the vectors have room for. *)
Definition in_range (H : hamiltonian) (dim : nat) : bool :=
  forallb (fun k => bool_decide (default 0 (d_H_rows H !! k) < dim)
                    && bool_decide (default 0 (d_H_cols H !! k) < dim))
          (seq 0 (num_Elem H)).

(** What [cusparseXcoo2csr] and [cusparseZcsrmv] need of the operator
    to stay inside their buffers: the three arrays hold [num_Elem]
    entries, every row index is one of the [dim] rows that
    [d_H_rowptrs] is allocated for, and every column index is one of the
    [dim] cells of the vector that is read. *)
Definition addressable (H : hamiltonian) (dim : nat) : bool :=
  bool_decide (num_Elem H <= length (d_H_vals H) /\
               num_Elem H <= length (d_H_rows H) /\
               num_Elem H <= length (d_H_cols H))
  && in_range H dim.

(** The product [y = H x] over the rows [0 .. dim-1], for an operator
    that is [addressable]; [lanczos] computes it through
    [cusparseZcsrmv] below, behind that condition, under which no
    index of the sum is outside its array. *)
Definition csrmv (H : hamiltonian) (dim : nat) (x : list cuDoubleComplex)
  : list cuDoubleComplex :=
  map (fun i =>
         foldl (fun acc k =>
                  if decide (default 0 (d_H_rows H !! k) = i)
                  then cuCadd acc
                         (cuCmul (default czero (d_H_vals H !! k))
                                 (default czero
                                    (x !! default 0 (d_H_cols H !! k))))
                  else acc)
               czero (seq 0 (num_Elem H)))
      (seq 0 dim).

(** [cusparseXcoo2csr] (line 99) followed by [cusparseZcsrmv] with
    [m = n = dim], [alpha = 1] and [beta = 0] (lines 198 and 352).  The
    routines check nothing: an entry outside the block, or a vector of
    less than [dim] cells, makes them read outside a buffer. *)
Definition cusparseZcsrmv (H : hamiltonian) (dim : nat)
    (x : list cuDoubleComplex) : option (list cuDoubleComplex) :=
  _ ← check (addressable H dim && bool_decide (dim <= length x));
  Some (csrmv H dim x).

(** [cublasZdotc(n, x, 1, y, 1)]: conjugate-linear in [x]. *)
Definition Zdotc (n : nat) (x y : list cuDoubleComplex) : cuDoubleComplex :=
  foldl cuCadd czero
        (zip_with (fun xi yi => cuCmul (cuConj xi) yi) (take n x) (take n y)).

(** [cublasZaxpy(n, a, x, 1, y, 1)]: [y <- a x + y]; the result is the
    new content of [y]. *)
Definition Zaxpy (n : nat) (a : cuDoubleComplex) (x y : list cuDoubleComplex)
  : list cuDoubleComplex :=
  zip_with (fun xi yi => cuCadd (cuCmul a xi) yi) (take n x) (take n y)
  ++ drop n y.

(** [cublasDznrm2(n, x, 1)]: the Euclidean norm. *)
Definition Dznrm2 (n : nat) (x : list cuDoubleComplex) : double :=
  sqrt (foldl (fun acc xi =>
                 (acc + (cuCreal xi * cuCreal xi + cuCimag xi * cuCimag xi))%float)
              0%float (take n x)).

(** ** The tridiagonal eigensolver

    [lanczos] calls [tqli(d, e, n, z)], which overwrites [d[0..n-1]] with
    the eigenvalues of the symmetric tridiagonal matrix with diagonal
    [d[0..n-1]] and off-diagonal [e[1..n-1]].  The routine lives in a
    separate file; the engine is therefore parametrised by it. The
    eigenvector accumulator [z] does not influence [d] and is left out. *)
Definition solver : Type := list double -> list double -> nat -> list double.

(** Unchecked read with the buffers [tqli] is handed. *)
Definition at_ (a : list double) (i : nat) : double := default 0%float (a !! i).

(** [SIGN(a,b)] of [lanczos.h]. *)
Definition SIGN (a b : double) : double :=
  if (0 <=? b)%float then abs a else (- abs a)%float.

(** Modelled from the spec: [pythag] is declared in [lanczos.h] and
    defined in the absent solver file; section 4.2 describes it as the
    hypotenuse computed by factoring out the larger magnitude. *)
Definition pythag (a b : double) : double :=
  let absa := abs a in
  let absb := abs b in
  if (absb <? absa)%float
  then (absa * sqrt (1 + (absb / absa) * (absb / absa)))%float
  else if (absb =? 0)%float then 0%float
       else (absb * sqrt (1 + (absa / absb) * (absa / absb)))%float.

(** The deflation test of section 4.2: the first [m >= l] whose
    off-diagonal entry is negligible against its two neighbours on the
    diagonal, or the last row. *)
Fixpoint tqli_split (d e : list double) (m k : nat) : nat :=
  match k with
  | 0 => m
  | S k' =>
      let dd := (abs (at_ d m) + abs (at_ d (m + 1)))%float in
      if (abs (at_ e m) + dd =? dd)%float then m
      else tqli_split d e (S m) k'
  end.

(** The plane rotations that chase the bulge from row [m-1] up to row
    [l]; [k] rows remain and the current row is [l + k - 1].  The last
    component tells whether the chase stopped on a zero rotation. *)
Fixpoint tqli_chase (l m k : nat) (d e : list double) (s c p g : double)
  : list double * list double * double * double * bool :=
  match k with
  | 0 => (d, e, p, g, false)
  | S k' =>
      let i := l + k' in
      let f := (s * at_ e i)%float in
      let b := (c * at_ e i)%float in
      let r := pythag f g in
      let e := <[i + 1 := r]> e in
      if (r =? 0)%float
      then (<[i + 1 := (at_ d (i + 1) - p)%float]> d, <[m := 0%float]> e,
            p, g, true)
      else
        let s := (f / r)%float in
        let c := (g / r)%float in
        let g := (at_ d (i + 1) - p)%float in
        let r := ((at_ d i - g) * s + 2 * c * b)%float in
        let p := (s * r)%float in
        let d := <[i + 1 := (g + p)%float]> d in
        let g := (c * r - b)%float in
        tqli_chase l m k' d e s c p g
  end.

(** One implicit-shift QL step on the block [l .. m], with the Wilkinson
    shift of section 4.2. *)
Definition tqli_step (d e : list double) (l m : nat)
  : list double * list double :=
  let g := ((at_ d (l + 1) - at_ d l) / (2 * at_ e l))%float in
  let r := pythag g 1%float in
  let g := (at_ d m - at_ d l + at_ e l / (g + SIGN r g))%float in
  let '(d, e, p, g, stopped) := tqli_chase l m (m - l) d e 1%float 1%float 0%float g in
  if (stopped : bool) then (d, e)
  else (<[l := (at_ d l - p)%float]> d, <[m := 0%float]> (<[l := g]> e)).

(** QL steps on row [l] until it deflates, at most [fuel] of them. *)
Fixpoint tqli_iterate (fuel : nat) (d e : list double) (l n : nat)
  : list double * list double :=
  let m := tqli_split d e l (n - 1 - l) in
  if decide (m = l) then (d, e)
  else match fuel with
       | 0 => (d, e)
       | S fuel' =>
           let '(d, e) := tqli_step d e l m in tqli_iterate fuel' d e l n
       end.

Fixpoint tqli_rows (k l : nat) (d e : list double) (n : nat)
  : list double * list double :=
  match k with
  | 0 => (d, e)
  | S k' => let '(d, e) := tqli_iterate 30 d e l n in tqli_rows k' (S l) d e n
  end.

(** Modelled from the spec: [tqli], whose definition is in a file that
    is not part of the sources.  Section 4.2: implicit-shift QL with
    deflation, off-diagonal in [e[1..n-1]], the shift and the rotations
    on a row [l] and the split index [m] found from it, at most 30 steps
    per row; a row that does not converge is left as it is and the call
    goes on; the eigenvalues are left in [d] unsorted.  Where every
    off-diagonal entry that is used is 0 each row deflates at once and
    [d] is returned as it came. *)
Definition tqli : solver := fun d e n =>
  let e := foldl (fun e i => <[i - 1 := at_ e i]> e) e (seq 1 (n - 1)) in
  let e := <[n - 1 := 0%float]> e in
  fst (tqli_rows n 0 d e n).

(** ** The engine: [lanczos] of [src/lanczos.cu] *)

(** The variables of [lanczos] that live across rounds.  [v0], [v1],
    [v2], [temp] and [y] are buffers of [dim] entries; [v2] and [temp]
    are rewritten from scratch in every round and are local to it. *)
Record state : Type := State {
  max_Iter : nat;
  iter : nat;
  d_a : list cuDoubleComplex;
  d_b : list cuDoubleComplex;
  d_lanczvec : list cuDoubleComplex;
  v0 : list cuDoubleComplex;
  v1 : list cuDoubleComplex;
  y : list cuDoubleComplex;
  gamma : cuDoubleComplex;
  d_ordered : list double;
  d_ordered_ptr : nat;
  gs_Energy : double;
  eigtemp : double;
  d_diag : list double;
  d_offdia : list double;
}.

(** The [int] expressions of the code before the loop: the four [int]
    arguments (line 60), [dim + tpb - 1] (line 147) and the product
    [dim*max_Iter] (line 153). *)
Definition representable (H : hamiltonian) (dim max_Iter num_Eig : nat)
  : bool :=
  fits_int (Z.of_nat (num_Elem H))
  && fits_int (Z.of_nat dim + Z.of_nat tpb - 1)
  && fits_int (Z.of_nat max_Iter)
  && fits_int (Z.of_nat num_Eig)
  && fits_int (Z.of_nat dim * Z.of_nat max_Iter).

(** Lines 60-340: the allocations and "the first round". *)
Definition lanczos_init (H : hamiltonian) (dim max_Iter num_Eig : nat)
  : option state :=
  _ ← check (representable H dim max_Iter num_Eig);
  let d_a := replicate max_Iter czero in
  let d_b := replicate max_Iter czero in
  let d_lanczvec := replicate (dim * max_Iter) czero in
  let host_v0 := replicate dim (make_cuDoubleComplex 1%float 0%float) in
  let v0 := host_v0 in
  v1 ← cusparseZcsrmv H dim v0;
  let dottemp := Zdotc dim v1 v0 in
  d_a ← write d_a 0 dottemp;
  d_b ← write d_b 0 czero;
  (* zero<<<dim/512 + 1, 512>>>(y, dim) *)
  let y := replicate dim czero in
  a0 ← d_a !! 0;
  let axpytemp := cuCmul (make_cuDoubleComplex (-1)%float 0%float) a0 in
  let v1 := Zaxpy dim axpytemp v0 v1 in
  let normtemp := Dznrm2 dim v1 in
  d_b ← write d_b 1 (make_cuDoubleComplex (sqrt normtemp) 0%float);
  b1 ← d_b !! 1;
  let gamma := make_cuDoubleComplex (1 / cuCreal b1)%float 0%float in
  let y := Zaxpy dim gamma v1 y in
  Some {| max_Iter := max_Iter; iter := 0;
          d_a := d_a; d_b := d_b; d_lanczvec := d_lanczvec;
          v0 := v0; v1 := v1; y := y; gamma := gamma;
          d_ordered := replicate num_Eig 0%float; d_ordered_ptr := 0;
          gs_Energy := 1%float; eigtemp := 0%float;
          d_diag := replicate max_Iter 0%float;
          d_offdia := replicate max_Iter 0%float |}.

(** The residual the loop body leaves in [v2] (lines 352-387):
    [v2 = H v1], [temp = v1], [temp += (b/a) v0], [v2 += a temp]. *)
Definition residual (H : hamiltonian) (dim : nat)
    (a b : cuDoubleComplex) (v0 v1 : list cuDoubleComplex)
  : list cuDoubleComplex :=
  let v2 := csrmv H dim v1 in
  let temp := v1 in
  let axpytemp := cuCdiv b a in
  let temp := Zaxpy dim axpytemp v0 temp in
  let axpytemp := a in
  Zaxpy dim axpytemp temp v2.

(** Lines 344-415: one step of the recurrence and the two new entries of
    the tridiagonal matrix. *)
Definition lanczos_recurrence (H : hamiltonian) (dim : nat) (st : state)
  : option state :=
  let iter := S (iter st) in
  eigtemp ← d_ordered st !! d_ordered_ptr st;
  v2 ← cusparseZcsrmv H dim (v1 st);
  let dottemp := Zdotc dim (v1 st) v2 in
  d_a ← write (d_a st) iter dottemp;
  b_iter ← d_b st !! iter;
  a_iter ← d_a !! iter;
  let v2 := residual H dim a_iter b_iter (v0 st) (v1 st) in
  let normtemp := Dznrm2 dim v2 in
  d_b ← write (d_b st) (iter + 1)
              (make_cuDoubleComplex (sqrt normtemp) 0%float);
  b_next ← d_b !! (iter + 1);
  let gamma := make_cuDoubleComplex (1 / cuCreal b_next)%float 0%float in
  let y := Zaxpy dim gamma v2 (y st) in
  d_lanczvec ← cudaMemcpy (d_lanczvec st) (dim * (iter - 1)) dim (v0 st);
  d_diag ← write (d_diag st) iter (cuCreal a_iter);
  d_offdia ← write (d_offdia st) (iter + 1) (cuCreal b_next);
  Some {| max_Iter := max_Iter st; iter := iter;
          d_a := d_a; d_b := d_b; d_lanczvec := d_lanczvec;
          v0 := v1 st; v1 := v2; y := y; gamma := gamma;
          d_ordered := d_ordered st; d_ordered_ptr := d_ordered_ptr st;
          gs_Energy := gs_Energy st; eigtemp := eigtemp;
          d_diag := d_diag; d_offdia := d_offdia |}.

(** Lines 421-441: [d_H_eigen] is allocated with
    [max_Iter*max_Iter] cells, a product of [int]s; the host copies of
    [d_diag] and [d_offdia] go through [tqli], the result is copied back
    into [d_diag] and sorted there, from [begin()] to [end()], and its
    first [num_Eig] entries become [d_ordered]. *)
Definition lanczos_extract (tqli : solver) (num_Eig : nat) (st : state)
  : option state :=
  _ ← check (fits_int (Z.of_nat (max_Iter st) * Z.of_nat (max_Iter st)));
  let h_diag := d_diag st in
  let h_offdia := d_offdia st in
  let h_diag := tqli h_diag h_offdia (iter st + 1) in
  let d_diag := thrust_sort h_diag in
  d_ordered ← thrust_copy d_diag num_Eig (d_ordered st);
  gs_Energy ← d_ordered !! (num_Eig - 1);
  Some {| max_Iter := max_Iter st; iter := iter st;
          d_a := d_a st; d_b := d_b st; d_lanczvec := d_lanczvec st;
          v0 := v0 st; v1 := v1 st; y := y st; gamma := gamma st;
          d_ordered := d_ordered; d_ordered_ptr := num_Eig - 1;
          gs_Energy := gs_Energy; eigtemp := eigtemp st;
          d_diag := d_diag; d_offdia := d_offdia st |}.

(** Line 447: [iter == max_Iter - 1], on C [int]s. *)
Definition grows (iter max_Iter : nat) : bool :=
  bool_decide (Z.of_nat iter = (Z.of_nat max_Iter - 1)%Z).

(** Lines 447-457: [resize] keeps the old entries and value-initialises
    the new ones.  The host copies [h_diag] and [h_offdia] are resized
    alike; every round overwrites them from the device arrays (line
    428) before it uses them. *)
Definition lanczos_grow (dim : nat) (st : state) : state :=
  if grows (iter st) (max_Iter st)
  then {| max_Iter := 2 * max_Iter st; iter := iter st;
          d_a := resize (2 * max_Iter st) czero (d_a st);
          d_b := resize (2 * max_Iter st) czero (d_b st);
          d_lanczvec := resize (2 * max_Iter st * dim) czero (d_lanczvec st);
          v0 := v0 st; v1 := v1 st; y := y st; gamma := gamma st;
          d_ordered := d_ordered st; d_ordered_ptr := d_ordered_ptr st;
          gs_Energy := gs_Energy st; eigtemp := eigtemp st;
          d_diag := resize (2 * max_Iter st) 0%float (d_diag st);
          d_offdia := resize (2 * max_Iter st) 0%float (d_offdia st) |}
  else st.

(** The body of the [while] loop. *)
Definition lanczos_round (tqli : solver) (H : hamiltonian)
    (dim num_Eig : nat) (st : state) : option state :=
  st ← lanczos_recurrence H dim st;
  st ← lanczos_extract tqli num_Eig st;
  Some (lanczos_grow dim st).

(** How a call ends: the loop is left and [d_ordered] is printed; the
    call has left defined behaviour, by an access outside a buffer or
    an [int] that overflows; or the rounds allowed to the model are used
    up.  The code has no other outcome: nothing in it rejects an
    argument. *)
Inductive run : Type :=
  | Finished (st : state)
  | Overrun
  | Unfinished (st : state).

(** Line 342: [while (fabs(gs_Energy - eigtemp) > conv_req)]. *)
Definition continues (conv_req : double) (st : state) : bool :=
  (conv_req <? abs (gs_Energy st - eigtemp st))%float.

Fixpoint lanczos_loop (tqli : solver) (H : hamiltonian) (dim num_Eig : nat)
    (conv_req : double) (fuel : nat) (st : state) : run :=
  if continues conv_req st
  then match fuel with
       | 0 => Unfinished st
       | S fuel' =>
           match lanczos_round tqli H dim num_Eig st with
           | Some st' => lanczos_loop tqli H dim num_Eig conv_req fuel' st'
           | None => Overrun
           end
       end
  else Finished st.

Definition lanczos (tqli : solver) (fuel : nat) (H : hamiltonian)
    (dim max_Iter num_Eig : nat) (conv_req : double) : run :=
  match lanczos_init H dim max_Iter num_Eig with
  | Some st => lanczos_loop tqli H dim num_Eig conv_req fuel st
  | None => Overrun
  end.

(** Lines 462-467: what is printed. *)
Definition h_ordered (r : run) : option (list double) :=
  match r with
  | Finished st => Some (d_ordered st)
  | _ => None
  end.

(** ** The representation invariant

    Every growable buffer has the size its allocation or last [resize]
    gave it, and the work vectors have [dim] entries. *)
Record allocated (dim : nat) (st : state) : Prop := Allocated {
  alloc_d_a : length (d_a st) = max_Iter st;
  alloc_d_b : length (d_b st) = max_Iter st;
  alloc_d_lanczvec : length (d_lanczvec st) = dim * max_Iter st;
  alloc_d_diag : length (d_diag st) = max_Iter st;
  alloc_d_offdia : length (d_offdia st) = max_Iter st;
  alloc_v0 : length (v0 st) = dim;
  alloc_v1 : length (v1 st) = dim;
  alloc_y : length (y st) = dim;
}.

(** A solver that works in place keeps the size of the buffer. *)
Definition in_place (s : solver) : Prop :=
  forall d e n, length (s d e n) = length d.

(** What [gamma] holds after the first round and after every round of
    the loop: the quotient [1 / d_b[iter+1]], whatever the divisor. *)
Definition scaled_by_last_beta (st : state) : Prop :=
  exists b, d_b st !! (iter st + 1) = Some b /\
            gamma st = make_cuDoubleComplex (1 / cuCreal b)%float 0%float.

(** The same state with another content of the scratch vector [y]. *)
Definition with_y (y0 : list cuDoubleComplex) (st : state) : state :=
  {| max_Iter := max_Iter st; iter := iter st;
     d_a := d_a st; d_b := d_b st; d_lanczvec := d_lanczvec st;
     v0 := v0 st; v1 := v1 st; y := y0; gamma := gamma st;
     d_ordered := d_ordered st; d_ordered_ptr := d_ordered_ptr st;
     gs_Energy := gs_Energy st; eigtemp := eigtemp st;
     d_diag := d_diag st; d_offdia := d_offdia st |}.

(** The real part of entry [i] of a vector. *)
Definition cuCreal_at (v : list cuDoubleComplex) (i : nat) : double :=
  cuCreal (default czero (v !! i)).

(** ** What the design document asks for *)

(** Section 4.1, step 3: [w = w - alpha_i v_i - beta_i v_(i-1)], on
    [w = H v_i]. *)
Definition three_term_residual (H : hamiltonian) (dim : nat)
    (alpha beta : cuDoubleComplex) (v_prev v_i : list cuDoubleComplex)
  : list cuDoubleComplex :=
  let minus c := cuCmul (make_cuDoubleComplex (-1)%float 0%float) c in
  let w := csrmv H dim v_i in
  let w := Zaxpy dim (minus alpha) v_i w in
  Zaxpy dim (minus beta) v_prev w.

(** Section 4.4: the [k] smallest eigenvalues, ascending, among the [n]
    entries of the current projection. *)
Definition smallest_eigenvalues (k n : nat) (solved : list double)
  : list double :=
  take k (thrust_sort (take n solved)).

(** ** Kernels and their launches *)

(** A kernel, seen from one thread: [blockDim.x], [blockIdx.x] and
    [threadIdx.x], and the device memory the thread works on. *)
Definition kernel (M : Type) : Type := nat -> nat -> nat -> M -> option M.

(** [k<<<gridDim, blockDim>>>(...)]: one thread for every block index
    below [gridDim] and every thread index below [blockDim].  No kernel
    of the sources stores into one cell from two threads, or reads a
    cell that another thread stores into, so running the threads one
    after the other gives what the launch gives. *)
Definition launch {M} (gridDim blockDim : nat) (k : kernel M) (mem : M)
  : option M :=
  foldl (fun mem blockIdx =>
           foldl (fun mem threadIdx => mem ≫= k blockDim blockIdx threadIdx)
                 mem (seq 0 blockDim))
        (Some mem) (seq 0 gridDim).

(** Lines 19-25: [zero] on complex numbers. *)
Definition zero (m : nat) : kernel (list cuDoubleComplex) :=
  fun blockDim blockIdx threadIdx a =>
    let i := blockDim * blockIdx + threadIdx in
    if decide (i < m) then write a i (make_cuDoubleComplex 0%float 0%float)
    else Some a.

(** Lines 28-34: the overload of [zero] on doubles. *)
Definition zero_double (m : nat) : kernel (list double) :=
  fun blockDim blockIdx threadIdx a =>
    let i := blockDim * blockIdx + threadIdx in
    if decide (i < m) then write a i 0%float else Some a.

(** Lines 37-44. *)
Definition unitdiag (m : nat) : kernel (list double) :=
  fun blockDim blockIdx threadIdx a =>
    let i := blockDim * blockIdx + threadIdx in
    if decide (i < m) then write a (i + m * i) 1%float else Some a.

(** Lines 426-427 of [lanczos]: the two launches on the matrix
    [d_H_eigen] that [tqli] is to accumulate the eigenvectors in. *)
Definition d_H_eigen_setup (dim iter : nat) (d_H_eigen : list double)
  : option (list double) :=
  d_H_eigen ← launch (bpg dim) tpb (zero_double iter) d_H_eigen;
  launch (bpg dim) tpb (unitdiag iter) d_H_eigen.

(** The shape these kernels share: the thread of global index [i]
    stores [f i] in cell [g i] when [i < m]; [threads] runs the first
    [n] of them. *)
Definition store_at {A} (m : nat) (g : nat -> nat) (f : nat -> option A)
  : nat -> list A -> option (list A) :=
  fun i a => if decide (i < m) then v ← f i; write a (g i) v else Some a.

Definition threads {A} (m : nat) (g : nat -> nat) (f : nat -> option A)
    (n : nat) (a : list A) : option (list A) :=
  foldl (fun mem i => mem ≫= store_at m g f i) (Some a) (seq 0 n).

(** ** The order on doubles *)

(** A double that is not NaN: [x == x]. *)
Definition number (x : double) : bool := (x =? x)%float.

(** The postcondition of [thrust::sort]: neighbours are in order. *)
Fixpoint ascending (l : list double) : bool :=
  match l with
  | [] => true
  | a :: t => match t with
              | [] => true
              | b :: _ => (a <=? b)%float && ascending t
              end
  end.

(** ** The older variant ([src/unnamed/part_000])

    The older [lanczos] is not a program that can be run: it does not
    compile.  Its kernels are complete functions and are embedded, with
    the test that guards its growth block. *)
Module Legacy.

(** Line 60: [w[i] = cuCsub(x[i], cuCsub(cuCmul(alpha,y[i]),
    cuCmul(beta,z[i])))] for the threads [i < n]. *)
Definition vecdiff (w x : list cuDoubleComplex) (alpha : cuDoubleComplex)
    (y : list cuDoubleComplex) (beta : cuDoubleComplex)
    (z : list cuDoubleComplex) (n : nat) : list cuDoubleComplex :=
  let elt (a : list cuDoubleComplex) i := default czero (a !! i) in
  map (fun i => cuCsub (elt x i)
                  (cuCsub (cuCmul alpha (elt y i)) (cuCmul beta (elt z i))))
      (seq 0 (min n (length w)))
  ++ drop n w.

(** The header of [vecdiff]: "Implements w = x - a*y - b*z". *)
Definition vecdiff_documented (w x : list cuDoubleComplex)
    (alpha : cuDoubleComplex) (y : list cuDoubleComplex)
    (beta : cuDoubleComplex) (z : list cuDoubleComplex) (n : nat)
  : list cuDoubleComplex :=
  let elt (a : list cuDoubleComplex) i := default czero (a !! i) in
  map (fun i => cuCsub (cuCsub (elt x i) (cuCmul alpha (elt y i)))
                       (cuCmul beta (elt z i)))
      (seq 0 (min n (length w)))
  ++ drop n w.

(** Line 432: [iter == max_Iter - 2], on C [int]s. *)
Definition grows (iter max_Iter : nat) : bool :=
  bool_decide (Z.of_nat iter = (Z.of_nat max_Iter - 2)%Z).

(** Lines 74-79. *)
Definition assignr (b : double) (n : nat) : kernel (list cuDoubleComplex) :=
  fun blockDim blockIdx threadIdx a =>
    let i := blockDim * blockIdx + threadIdx in
    if decide (i < n) then write a i (make_cuDoubleComplex b 0%float)
    else Some a.

(** Lines 81-87. *)
Definition assign (b : double) (n : nat) : kernel (list double) :=
  fun blockDim blockIdx threadIdx a =>
    let i := blockDim * blockIdx + threadIdx in
    if decide (i < n) then write a i b else Some a.

(** Lines 99-105: [b[i] = a[i].x] for the threads [i <= n]. *)
Definition complextodoubler (a : list cuDoubleComplex) (n : nat)
  : kernel (list double) :=
  fun blockDim blockIdx threadIdx b =>
    let i := blockDim * blockIdx + threadIdx in
    if decide (i <= n) then a_i ← a !! i; write b i (cuCreal a_i)
    else Some b.

(** Lines 108-117: the same with [i] one above the index of the
    thread, and a zero behind the last entry. *)
Definition complextodoubler2 (a : list cuDoubleComplex) (n : nat)
  : kernel (list double) :=
  fun blockDim blockIdx threadIdx b =>
    let i := blockDim * blockIdx + threadIdx + 1 in
    b ← (if decide (i <= n) then a_i ← a !! i; write b (i - 1) (cuCreal a_i)
         else Some b);
    if decide (i = n + 1) then write b (i - 1) 0%float else Some b.

End Legacy.

(** ** Sample calls *)

Definition real (x : double) : cuDoubleComplex := make_cuDoubleComplex x 0%float.

(** The convergence tolerance of the sample calls, 2^-20. *)
Definition tol : double := 0x1p-20%float.

(** [[2 1] [1 3]]. *)
Definition H_sym : hamiltonian :=
  {| num_Elem := 4;
     d_H_vals := [real 2%float; real 1%float; real 1%float; real 3%float];
     d_H_rows := [0; 0; 1; 1];
     d_H_cols := [0; 1; 0; 1] |}.

(** [-I] of dimension 2. *)
Definition H_neg : hamiltonian :=
  {| num_Elem := 2;
     d_H_vals := [real (-1)%float; real (-1)%float];
     d_H_rows := [0; 1];
     d_H_cols := [0; 1] |}.

(** The 1 x 1 operator [[2]]: the starting vector is an eigenvector. *)
Definition H_eig : hamiltonian :=
  {| num_Elem := 1;
     d_H_vals := [real 2%float];
     d_H_rows := [0];
     d_H_cols := [0] |}.



(** [[-1 1/2] [1/2 -1]]: with one eigenvalue asked for and a tolerance
    of 1/8 the loop is left after three rounds. *)
Definition H_well : hamiltonian :=
  {| num_Elem := 4;
     d_H_vals := [real (-1)%float; real 0.5%float; real 0.5%float;
                  real (-1)%float];
     d_H_rows := [0; 0; 1; 1];
     d_H_cols := [0; 1; 0; 1] |}.

(** [st_full] with an estimate that is not a number. *)
Definition st_nan : state :=
  {| max_Iter := 4; iter := 3;
     d_a := [real 2%float; real 3%float; real 5%float; real 7%float];
     d_b := [real 0%float; real 1%float; real 4%float; real 9%float];
     d_lanczvec := [real 1%float; real 6%float; real 8%float; real 0%float];
     v0 := [real 8%float]; v1 := [real 10%float]; y := [real 0%float];
     gamma := real 1%float;
     d_ordered := [nan]; d_ordered_ptr := 0;
     gs_Energy := nan; eigtemp := 3%float;
     d_diag := [2; 3; 5; 7]%float;
     d_offdia := [0; 1; 4; 9]%float |}.

(** * Properties *)

(** ** Buffers *)

Section Buffers.
Context {A : Type}.
Implicit Types (a dst src : list A) (x : A).

Lemma write_Some a i x : i < length a -> write a i x = Some (<[i := x]> a).
Proof. intros Hi. unfold write. by rewrite decide_True. Qed.

Lemma write_inv a i x a' :
  write a i x = Some a' -> i < length a /\ a' = <[i := x]> a.
Proof. unfold write. destruct (decide _); naive_solver. Qed.

Lemma write_lookup a i x a' : write a i x = Some a' -> a' !! i = Some x.
Proof. intros [Hi ->]%write_inv. by apply list_lookup_insert_eq. Qed.

Lemma cudaMemcpy_inv dst off n src dst' :
  cudaMemcpy dst off n src = Some dst' ->
  off + n <= length dst /\ n <= length src /\
  dst' = take off dst ++ take n src ++ drop (off + n) dst.
Proof.
  unfold cudaMemcpy. destruct (decide _) as [[? ?]|]; [|discriminate].
  injection 1 as <-. auto.
Qed.

Lemma thrust_copy_inv src n dst dst' :
  thrust_copy src n dst = Some dst' ->
  n <= length src /\ n <= length dst /\ dst' = take n src ++ drop n dst.
Proof.
  unfold thrust_copy. destruct (decide _) as [[? ?]|]; [|discriminate].
  injection 1 as <-. auto.
Qed.

(** [resize] to a larger size keeps the old entries, in place. *)
Lemma take_resize_old a x m n :
  length a = m -> m <= n -> take m (resize n x a) = a.
Proof.
  intros <- Hn. rewrite resize_ge by done. by rewrite take_app_length.
Qed.

Lemma lookup_resize_old a x n i :
  i < n -> i < length a -> resize n x a !! i = a !! i.
Proof.
  intros Hn Hl. rewrite resize_spec.
  rewrite lookup_app_l by (rewrite length_take; lia).
  by apply lookup_take_lt.
Qed.
End Buffers.

Lemma length_sort_insert x l : length (sort_insert x l) = S (length l).
Proof.
  induction l as [|h t IH]; simpl; [done|].
  destruct (x <? h)%float; simpl; by rewrite ?IH.
Qed.

Lemma length_thrust_sort l : length (thrust_sort l) = length l.
Proof.
  induction l as [|h t IH]; simpl; [done|].
  by rewrite length_sort_insert, IH.
Qed.

(** ** Doubles: [a <= b] excludes [b < a] *)

Lemma SFcompare_antisym (a b : spec_float) (c : comparison) :
  SFcompare a b = Some c -> SFcompare b a = Some (CompOpp c).
Proof.
  destruct a as [[]| [] | |[] ma ea], b as [[]|[]| |[] mb eb]; simpl;
    intros Hc; try discriminate; try (injection Hc as <-; reflexivity).
  - injection Hc as <-. f_equal.
    rewrite (Z.compare_antisym ea eb).
    destruct (ea ?= eb)%Z; simpl; try reflexivity.
    rewrite CompOpp_involutive.
    rewrite Pos.compare_cont_antisym. reflexivity.
  - injection Hc as <-. f_equal.
    rewrite (Z.compare_antisym ea eb).
    destruct (ea ?= eb)%Z; simpl; try reflexivity.
    rewrite Pos.compare_cont_antisym. reflexivity.
Qed.

Lemma leb_not_ltb (a b : double) :
  (a <=? b)%float = true -> (b <? a)%float = false.
Proof.
  rewrite leb_spec, ltb_spec. unfold SFleb, SFltb.
  destruct (SFcompare (Prim2SF a) (Prim2SF b)) as [c|] eqn:E; [|discriminate].
  rewrite (SFcompare_antisym _ _ _ E). destruct c; simpl; congruence.
Qed.

(** ** Collaborators: sizes *)

Lemma length_csrmv H dim x : length (csrmv H dim x) = dim.
Proof. unfold csrmv. by rewrite length_map, length_seq. Qed.

Lemma length_Zaxpy n a x yv :
  n <= length x -> length (Zaxpy n a x yv) = length yv.
Proof.
  intros Hn. unfold Zaxpy.
  rewrite length_app, length_zip_with, !length_take, length_drop. lia.
Qed.

Lemma length_residual H dim a b u0 u1 :
  length u0 = dim -> length u1 = dim ->
  length (residual H dim a b u0 u1) = dim.
Proof.
  intros H0 H1. unfold residual.
  rewrite length_Zaxpy; [apply length_csrmv|].
  rewrite length_Zaxpy; lia.
Qed.

(** ** The solver of the samples works in place, and meets the sample
    of section 8 of the design document *)

Lemma tqli_chase_length l m k d e s c p g d' e' p' g' stop :
  tqli_chase l m k d e s c p g = (d', e', p', g', stop) ->
  length d' = length d.
Proof.
  revert d e s c p g. induction k as [|k IH]; intros d e s c p g; simpl.
  - by intros [= <- _ _ _ _].
  - destruct (pythag _ _ =? 0)%float.
    + intros [= <- _ _ _ _]. by rewrite length_insert.
    + intros Hc. apply IH in Hc. by rewrite length_insert in Hc.
Qed.

Lemma tqli_step_length d e l m :
  length (tqli_step d e l m).1 = length d.
Proof.
  unfold tqli_step.
  destruct (tqli_chase _ _ _ _ _ _ _ _ _) as [[[[d' e'] p'] g'] stop] eqn:Hc.
  apply tqli_chase_length in Hc.
  destruct stop; simpl; by rewrite ?length_insert.
Qed.

Lemma tqli_iterate_length fuel d e l n :
  length (tqli_iterate fuel d e l n).1 = length d.
Proof.
  revert d e. induction fuel as [|fuel IH]; intros d e; simpl.
  - by destruct (decide _).
  - destruct (decide _); [done|].
    pose proof (tqli_step_length d e l (tqli_split d e l (n - 1 - l))) as Hs.
    destruct (tqli_step _ _ _ _) as [d' e']. by rewrite IH.
Qed.

Lemma tqli_rows_length k l d e n :
  length (tqli_rows k l d e n).1 = length d.
Proof.
  revert l d e. induction k as [|k IH]; intros l d e; cbn [tqli_rows];
    [done|].
  pose proof (tqli_iterate_length 30 d e l n) as Hs.
  destruct (tqli_iterate 30 d e l n) as [d' e']. by rewrite IH.
Qed.

Lemma tqli_in_place : in_place tqli.
Proof. intros d e n. unfold tqli. apply tqli_rows_length. Qed.

(** [d = [2,2,2]], [e = [1,1]]: the eigenvalues are [2 - sqrt 2], [2]
    and [2 + sqrt 2], here to within 2^-30. *)
Lemma tqli_three_by_three :
  forallb (fun '(x, t) => (abs (x - t) <? 0x1p-30)%float)
          (zip (thrust_sort (tqli [2; 2; 2]%float [0; 1; 1]%float 3))
               [(2 - sqrt 2)%float; 2%float; (2 + sqrt 2)%float])
  = true.
Proof. vm_compute. reflexivity. Qed.

(** ** The first round *)

Lemma check_Some b u : check b = Some u -> b = true.
Proof. by destruct b. Qed.

Lemma cusparseZcsrmv_Some H dim x :
  addressable H dim = true -> dim <= length x ->
  cusparseZcsrmv H dim x = Some (csrmv H dim x).
Proof.
  intros Ha Hx. unfold cusparseZcsrmv.
  by rewrite Ha, bool_decide_eq_true_2.
Qed.

Lemma cusparseZcsrmv_inv H dim x w :
  cusparseZcsrmv H dim x = Some w ->
  addressable H dim = true /\ dim <= length x /\ w = csrmv H dim x.
Proof.
  unfold cusparseZcsrmv. intros (u & Hu & Hw)%bind_Some.
  apply check_Some, andb_prop in Hu as [Ha Hx%bool_decide_eq_true].
  by injection Hw as <-.
Qed.

Lemma lanczos_init_Some H dim cap k :
  representable H dim cap k = true -> addressable H dim = true ->
  2 <= cap -> is_Some (lanczos_init H dim cap k).
Proof.
  intros Hr Ha Hc. unfold lanczos_init. rewrite Hr. simpl.
  rewrite cusparseZcsrmv_Some by (by rewrite ?length_replicate). simpl.
  rewrite !write_Some by (rewrite length_replicate; lia). simpl.
  rewrite list_lookup_insert_eq by (rewrite length_replicate; lia). simpl.
  rewrite write_Some by (rewrite length_insert, length_replicate; lia). simpl.
  rewrite list_lookup_insert_eq by (rewrite length_insert, length_replicate; lia).
  simpl. eauto.
Qed.

Lemma lanczos_init_inv H dim cap k st :
  lanczos_init H dim cap k = Some st ->
  2 <= cap /\
  (max_Iter st = cap /\ iter st = 0 /\
   d_ordered st = replicate k 0%float /\ d_ordered_ptr st = 0 /\
   gs_Energy st = 1%float /\ eigtemp st = 0%float) /\
  (v0 st = replicate dim (make_cuDoubleComplex 1%float 0%float) /\
   d_a st !! 0 = Some (Zdotc dim (csrmv H dim (v0 st)) (v0 st)) /\
   d_diag st = replicate cap 0%float /\
   d_offdia st = replicate cap 0%float) /\
  scaled_by_last_beta st /\
  allocated dim st.
Proof.
  unfold lanczos_init. intros Hi.
  apply bind_Some in Hi as (u & _ & Hi).
  apply bind_Some in Hi as (w & (_ & _ & ->)%cusparseZcsrmv_inv & Hi).
  apply bind_Some in Hi as (a & Ha & Hi).
  apply bind_Some in Hi as (b & Hb & Hi).
  apply bind_Some in Hi as (a0 & Ha0 & Hi).
  apply bind_Some in Hi as (b' & Hb' & Hi).
  apply bind_Some in Hi as (b1 & Hb1 & Hi).
  injection Hi as <-. unfold scaled_by_last_beta. simpl.
  pose proof (write_lookup _ _ _ _ Hb') as Hw. rewrite Hb1 in Hw.
  injection Hw as ->.
  apply write_inv in Hb' as [Hl1 ->]. apply write_inv in Hb as [Hl0 ->].
  apply write_inv in Ha as [Hla ->].
  rewrite length_insert, length_replicate in Hl1.
  split_and!; try done.
  - by apply list_lookup_insert_eq.
  - eexists. split; [|done].
    apply list_lookup_insert_eq. by rewrite length_insert, length_replicate.
  - split; simpl; rewrite ?length_insert, ?length_replicate; try done.
    all: repeat (rewrite length_Zaxpy || rewrite length_csrmv
                 || rewrite length_replicate); lia.
Qed.

(** ** One round *)

Create HintDb lanczos.

Section Round.
Variables (tqli : solver) (H : hamiltonian) (dim num_Eig : nat).
Implicit Types st : state.

Lemma lanczos_recurrence_inv st st' :
  lanczos_recurrence H dim st = Some st' ->
  exists e b_iter,
    let it := S (iter st) in
    let a_iter := Zdotc dim (v1 st) (csrmv H dim (v1 st)) in
    let w := residual H dim a_iter b_iter (v0 st) (v1 st) in
    let b_next := make_cuDoubleComplex (sqrt (Dznrm2 dim w)) 0%float in
    let g := make_cuDoubleComplex (1 / cuCreal b_next)%float 0%float in
    (d_ordered st !! d_ordered_ptr st = Some e /\
     d_b st !! it = Some b_iter /\
     it < length (d_a st) /\ it + 1 < length (d_b st) /\
     it < length (d_diag st) /\ it + 1 < length (d_offdia st) /\
     dim * (it - 1) + dim <= length (d_lanczvec st) /\
     dim <= length (v0 st)) /\
    (max_Iter st' = max_Iter st /\ iter st' = it /\
     d_ordered st' = d_ordered st /\
     d_ordered_ptr st' = d_ordered_ptr st /\
     gs_Energy st' = gs_Energy st /\ eigtemp st' = e) /\
    (d_a st' = <[it := a_iter]> (d_a st) /\
     d_b st' = <[it + 1 := b_next]> (d_b st) /\
     d_diag st' = <[it := cuCreal a_iter]> (d_diag st) /\
     d_offdia st' = <[it + 1 := cuCreal b_next]> (d_offdia st) /\
     d_lanczvec st' = take (dim * (it - 1)) (d_lanczvec st)
                      ++ take dim (v0 st)
                      ++ drop (dim * (it - 1) + dim) (d_lanczvec st)) /\
    (v0 st' = v1 st /\ v1 st' = w /\
     y st' = Zaxpy dim g w (y st) /\ gamma st' = g).
Proof.
  unfold lanczos_recurrence. intros Hr.
  apply bind_Some in Hr as (e & He & Hr).
  apply bind_Some in Hr as (w & (_ & _ & ->)%cusparseZcsrmv_inv & Hr).
  apply bind_Some in Hr as (a' & Ha & Hr).
  apply bind_Some in Hr as (b_iter & Hb & Hr).
  apply bind_Some in Hr as (a_iter & Hai & Hr).
  apply bind_Some in Hr as (b' & Hb' & Hr).
  apply bind_Some in Hr as (b_next & Hbn & Hr).
  apply bind_Some in Hr as (lv & Hlv & Hr).
  apply bind_Some in Hr as (dg & Hdg & Hr).
  apply bind_Some in Hr as (od & Hod & Hr).
  injection Hr as <-.
  pose proof (write_lookup _ _ _ _ Ha) as Hw. rewrite Hai in Hw.
  injection Hw as ->.
  pose proof (write_lookup _ _ _ _ Hb') as Hw. rewrite Hbn in Hw.
  injection Hw as ->.
  apply write_inv in Ha as [? ->]. apply write_inv in Hb' as [? ->].
  apply write_inv in Hdg as [? ->]. apply write_inv in Hod as [? ->].
  apply cudaMemcpy_inv in Hlv as (? & ? & ->).
  exists e, b_iter. simpl. split_and!; done.
Qed.

Lemma lanczos_extract_inv st st' :
  lanczos_extract tqli num_Eig st = Some st' ->
  exists gs,
    let sorted :=
      thrust_sort (tqli (d_diag st) (d_offdia st) (iter st + 1)) in
    let ordered := take num_Eig sorted ++ drop num_Eig (d_ordered st) in
    (num_Eig <= length sorted /\ num_Eig <= length (d_ordered st) /\
     ordered !! (num_Eig - 1) = Some gs) /\
    (max_Iter st' = max_Iter st /\ iter st' = iter st /\
     d_a st' = d_a st /\ d_b st' = d_b st /\
     d_lanczvec st' = d_lanczvec st /\ d_offdia st' = d_offdia st /\
     v0 st' = v0 st /\ v1 st' = v1 st /\ y st' = y st /\
     gamma st' = gamma st /\ eigtemp st' = eigtemp st) /\
    (d_diag st' = sorted /\ d_ordered st' = ordered /\
     d_ordered_ptr st' = num_Eig - 1 /\ gs_Energy st' = gs).
Proof.
  unfold lanczos_extract. intros He.
  apply bind_Some in He as (u & _ & He).
  apply bind_Some in He as (o & Ho & He).
  apply bind_Some in He as (gs & Hgs & He).
  injection He as <-.
  apply thrust_copy_inv in Ho as (? & ? & ->).
  exists gs. simpl. split_and!; done.
Qed.

Lemma lanczos_round_inv st st' :
  lanczos_round tqli H dim num_Eig st = Some st' ->
  exists st1 st2,
    lanczos_recurrence H dim st = Some st1 /\
    lanczos_extract tqli num_Eig st1 = Some st2 /\
    st' = lanczos_grow dim st2.
Proof.
  unfold lanczos_round. intros Hr.
  apply bind_Some in Hr as (st1 & H1 & Hr).
  apply bind_Some in Hr as (st2 & H2 & Hr).
  injection Hr as <-. eauto.
Qed.

(** *** Growth *)

Lemma grows_spec it cap : grows it cap = true <-> it + 1 = cap.
Proof. unfold grows. rewrite bool_decide_eq_true. lia. Qed.

Lemma lanczos_grow_grows st :
  grows (iter st) (max_Iter st) = true ->
  lanczos_grow dim st =
  {| max_Iter := 2 * max_Iter st; iter := iter st;
     d_a := resize (2 * max_Iter st) czero (d_a st);
     d_b := resize (2 * max_Iter st) czero (d_b st);
     d_lanczvec := resize (2 * max_Iter st * dim) czero (d_lanczvec st);
     v0 := v0 st; v1 := v1 st; y := y st; gamma := gamma st;
     d_ordered := d_ordered st; d_ordered_ptr := d_ordered_ptr st;
     gs_Energy := gs_Energy st; eigtemp := eigtemp st;
     d_diag := resize (2 * max_Iter st) 0%float (d_diag st);
     d_offdia := resize (2 * max_Iter st) 0%float (d_offdia st) |}.
Proof. intros Hg. unfold lanczos_grow. by rewrite Hg. Qed.

Lemma lanczos_grow_idle st :
  grows (iter st) (max_Iter st) = false -> lanczos_grow dim st = st.
Proof. intros Hg. unfold lanczos_grow. by rewrite Hg. Qed.

(** Growth leaves the scalars and the work vectors alone. *)
Lemma lanczos_grow_frame st :
  iter (lanczos_grow dim st) = iter st /\
  v0 (lanczos_grow dim st) = v0 st /\
  v1 (lanczos_grow dim st) = v1 st /\
  y (lanczos_grow dim st) = y st /\
  gamma (lanczos_grow dim st) = gamma st /\
  d_ordered (lanczos_grow dim st) = d_ordered st /\
  gs_Energy (lanczos_grow dim st) = gs_Energy st /\
  eigtemp (lanczos_grow dim st) = eigtemp st.
Proof. unfold lanczos_grow. destruct (grows _ _); done. Qed.

(** Growth keeps every entry at an index the round has used. *)
Lemma lanczos_grow_lookup st i :
  i <= iter st + 1 ->
  (i < length (d_a st) -> d_a (lanczos_grow dim st) !! i = d_a st !! i) /\
  (i < length (d_b st) -> d_b (lanczos_grow dim st) !! i = d_b st !! i) /\
  (i < length (d_diag st) ->
   d_diag (lanczos_grow dim st) !! i = d_diag st !! i) /\
  (i < length (d_offdia st) ->
   d_offdia (lanczos_grow dim st) !! i = d_offdia st !! i).
Proof.
  intros Hi. unfold lanczos_grow.
  destruct (grows _ _) eqn:Hg; [|done].
  apply grows_spec in Hg. simpl.
  split_and!; intros ?; apply lookup_resize_old; lia.
Qed.

Lemma lanczos_grow_lookup_vec st i :
  i < dim * (iter st + 1) -> i < length (d_lanczvec st) ->
  d_lanczvec (lanczos_grow dim st) !! i = d_lanczvec st !! i.
Proof.
  intros Hi Hl. unfold lanczos_grow.
  destruct (grows _ _) eqn:Hg; [|done].
  apply grows_spec in Hg. simpl. apply lookup_resize_old; [nia | done].
Qed.

(** In [lanczos.cu] a growth keeps the old content of every buffer as
    the prefix of the new one. *)
Lemma lanczos_grow_preserves st :
  allocated dim st ->
  grows (iter st) (max_Iter st) = true ->
  take (max_Iter st) (d_a (lanczos_grow dim st)) = d_a st /\
  take (max_Iter st) (d_b (lanczos_grow dim st)) = d_b st /\
  take (max_Iter st) (d_diag (lanczos_grow dim st)) = d_diag st /\
  take (max_Iter st) (d_offdia (lanczos_grow dim st)) = d_offdia st /\
  take (dim * max_Iter st) (d_lanczvec (lanczos_grow dim st))
  = d_lanczvec st.
Proof.
  intros [Ha Hb Hl Hd Ho _ _ _] Hg. rewrite (lanczos_grow_grows _ Hg).
  simpl. split_and!; apply take_resize_old; auto; lia.
Qed.

(** *** The scratch vector [y] is written and never read *)

Lemma lanczos_recurrence_with_y st y0 :
  lanczos_recurrence H dim (with_y y0 st)
  = (fun st' => with_y (Zaxpy dim (gamma st') (v1 st') y0) st')
      <$> lanczos_recurrence H dim st.
Proof.
  unfold lanczos_recurrence. simpl.
  repeat match goal with
         | |- context [ mbind _ ?m ] =>
             lazymatch m with
             | mbind _ _ => fail
             | _ => destruct m; simpl; [|reflexivity]
             end
         end.
  reflexivity.
Qed.

Lemma lanczos_extract_with_y st y0 :
  lanczos_extract tqli num_Eig (with_y y0 st)
  = with_y y0 <$> lanczos_extract tqli num_Eig st.
Proof.
  unfold lanczos_extract. simpl.
  destruct (check _) as [[]|]; simpl; [|reflexivity].
  destruct (thrust_copy _ _ _); simpl; [|reflexivity].
  destruct (_ !! _); reflexivity.
Qed.

Lemma lanczos_grow_with_y st y0 :
  lanczos_grow dim (with_y y0 st) = with_y y0 (lanczos_grow dim st).
Proof. unfold lanczos_grow. simpl. by destruct (grows _ _). Qed.

Lemma lanczos_round_with_y st y0 :
  lanczos_round tqli H dim num_Eig (with_y y0 st)
  = (fun st' => with_y (Zaxpy dim (gamma st') (v1 st') y0) st')
      <$> lanczos_round tqli H dim num_Eig st.
Proof.
  unfold lanczos_round. rewrite lanczos_recurrence_with_y.
  destruct (lanczos_recurrence H dim st) as [st1|]; simpl; [|reflexivity].
  rewrite lanczos_extract_with_y.
  destruct (lanczos_extract tqli num_Eig st1) as [st2|] eqn:H2; simpl;
    [|reflexivity].
  rewrite lanczos_grow_with_y.
  destruct (lanczos_grow_frame st2) as (_ & _ & -> & _ & -> & _).
  apply lanczos_extract_inv in H2
    as (gs & _ & (_ & _ & _ & _ & _ & _ & _ & -> & _ & -> & _) & _).
  reflexivity.
Qed.

(** *** What a round does to the vectors *)

Lemma lanczos_round_vectors st st' :
  lanczos_round tqli H dim num_Eig st = Some st' ->
  exists b_iter,
    d_b st !! S (iter st) = Some b_iter /\
    let w := residual H dim (Zdotc dim (v1 st) (csrmv H dim (v1 st)))
                      b_iter (v0 st) (v1 st) in
    let beta := sqrt (Dznrm2 dim w) in
    iter st' = S (iter st) /\
    d_b st' !! (iter st' + 1) = Some (make_cuDoubleComplex beta 0%float) /\
    gamma st' = make_cuDoubleComplex (1 / beta)%float 0%float /\
    y st' = Zaxpy dim (gamma st') w (y st) /\
    v1 st' = w /\
    v0 st' = v1 st /\
    (forall j, j < dim ->
               d_lanczvec st' !! (dim * iter st + j) = v0 st !! j).
Proof.
  intros (st1 & st2 & H1 & H2 & ->)%lanczos_round_inv.
  apply lanczos_recurrence_inv in H1
    as (e & b_iter & (_ & Hbi & _ & Hlb & _ & _ & Hlv & Hlv0)
        & (_ & Hit1 & _) & (_ & Hb1 & _ & _ & Hv)
        & (Hv0 & Hv1 & Hy1 & Hg1)).
  apply lanczos_extract_inv in H2
    as (gs & _
        & (_ & Hit2 & _ & Hb2 & Hv2 & _ & Hv02 & Hv12 & Hy2 & Hg2 & _) & _).
  destruct (lanczos_grow_frame st2) as (Hit & Hgv0 & Hgv1 & Hgy & Hg & _).
  exists b_iter. split; [done|]. simpl.
  rewrite Hit, Hg, Hgy, Hgv1, Hgv0, Hg2, Hy2, Hv12, Hv02, Hg1, Hy1, Hv1, Hv0.
  replace (S (iter st) - 1) with (iter st) in * by lia.
  split_and!; try done; [congruence | |].
  - destruct (lanczos_grow_lookup st2 (iter st2 + 1)) as (_ & Hb & _);
      [lia|].
    rewrite Hit2, Hit1 in *.
    rewrite Hb; rewrite Hb2, Hb1, ?length_insert; [|lia].
    apply list_lookup_insert_eq. lia.
  - intros j Hj.
    rewrite lanczos_grow_lookup_vec; rewrite ?Hv2, ?Hit2, ?Hit1, ?Hv.
    + rewrite lookup_app_r; rewrite length_take; [|lia].
      replace (dim * iter st + j
               - (dim * iter st) `min` length (d_lanczvec st))
        with j by lia.
      rewrite lookup_app_l by (rewrite length_take; lia).
      by apply lookup_take_lt.
    + nia.
    + rewrite !length_app, !length_take, length_drop. lia.
Qed.

(** *** [gamma] is the reciprocal of the last off-diagonal entry *)

Lemma scaled_by_last_beta_round st st' :
  lanczos_round tqli H dim num_Eig st = Some st' -> scaled_by_last_beta st'.
Proof.
  intros (b & _ & _ & Hb & Hg & _)%lanczos_round_vectors.
  by eexists.
Qed.

(** *** The buffers keep their sizes *)

Lemma allocated_recurrence st st' :
  allocated dim st -> lanczos_recurrence H dim st = Some st' ->
  allocated dim st'.
Proof.
  intros [Ha Hb Hl Hd Ho H0 H1 Hy]
    (e & b & (_ & _ & _ & _ & _ & _ & Hlv & _) & (Hm & _)
     & (Ea & Eb & Ed & Eo & El) & (E0 & E1 & Ey & _))%lanczos_recurrence_inv.
  split; rewrite ?Ea, ?Eb, ?Ed, ?Eo, ?El, ?E0, ?E1, ?Ey, ?Hm,
           ?length_insert; try done.
  - rewrite !length_app, !length_take, length_drop. lia.
  - by apply length_residual.
  - rewrite length_Zaxpy; [done|]. rewrite length_residual; done.
Qed.

Lemma allocated_extract st st' :
  in_place tqli -> allocated dim st ->
  lanczos_extract tqli num_Eig st = Some st' -> allocated dim st'.
Proof.
  intros Hp [Ha Hb Hl Hd Ho H0 H1 Hy]
    (gs & _ & (Hm & _ & Ea & Eb & El & Eo & E0 & E1 & Ey & _) & (Ed & _))
    %lanczos_extract_inv.
  split; rewrite ?Ea, ?Eb, ?Ed, ?Eo, ?El, ?E0, ?E1, ?Ey, ?Hm; try done.
  by rewrite length_thrust_sort, Hp.
Qed.

Lemma allocated_grow st : allocated dim st -> allocated dim (lanczos_grow dim st).
Proof.
  intros [Ha Hb Hl Hd Ho H0 H1 Hy]. unfold lanczos_grow.
  destruct (grows _ _); [|done].
  split; simpl; rewrite ?length_resize; try done. lia.
Qed.

#[local] Hint Resolve allocated_grow allocated_extract allocated_recurrence
  : lanczos.

Lemma allocated_round st st' :
  in_place tqli -> allocated dim st ->
  lanczos_round tqli H dim num_Eig st = Some st' -> allocated dim st'.
Proof.
  intros Hp Hst (st1 & st2 & H1 & H2 & ->)%lanczos_round_inv.
  eauto with lanczos.
Qed.

(** *** Line 447 comes one round late

    The round in which [iter == max_Iter - 1] holds has written
    [d_b[max_Iter]] before it reaches the test, so with buffers of
    their allocated size no round ever grows them. *)

Lemma growth_comes_too_late st :
  length (d_b st) = max_Iter st ->
  grows (S (iter st)) (max_Iter st) = true ->
  lanczos_recurrence H dim st = None.
Proof.
  intros Hb Hg%grows_spec.
  destruct (lanczos_recurrence H dim st) as [st'|] eqn:Hr; [|done].
  apply lanczos_recurrence_inv in Hr as (e & b & (_ & _ & _ & Hl & _) & _).
  lia.
Qed.

Lemma round_never_grows st st' :
  allocated dim st ->
  lanczos_round tqli H dim num_Eig st = Some st' ->
  max_Iter st' = max_Iter st.
Proof.
  intros Hst (st1 & st2 & H1 & H2 & ->)%lanczos_round_inv.
  pose proof H1 as (e & b & (_ & _ & _ & Hl & _) & (Hm1 & Hi1 & _) & _)
    %lanczos_recurrence_inv.
  apply lanczos_extract_inv in H2 as (gs & _ & (Hm2 & Hi2 & _) & _).
  rewrite lanczos_grow_idle; [congruence|].
  apply not_true_is_false. intros Hg%grows_spec.
  rewrite (alloc_d_b _ _ Hst) in Hl. lia.
Qed.

(** *** The loop *)

Variable conv_req : double.

Lemma lanczos_loop_finished fuel st :
  continues conv_req st = false ->
  lanczos_loop tqli H dim num_Eig conv_req fuel st = Finished st.
Proof. intros Hc. destruct fuel; simpl; by rewrite Hc. Qed.

Lemma lanczos_loop_step fuel st :
  continues conv_req st = true ->
  lanczos_loop tqli H dim num_Eig conv_req (S fuel) st =
  match lanczos_round tqli H dim num_Eig st with
  | Some st' => lanczos_loop tqli H dim num_Eig conv_req fuel st'
  | None => Overrun
  end.
Proof. intros Hc. simpl. by rewrite Hc. Qed.

(** More rounds allowed do not change a finished run. *)
Lemma lanczos_loop_fuel fuel fuel' st st' :
  lanczos_loop tqli H dim num_Eig conv_req fuel st = Finished st' ->
  fuel <= fuel' ->
  lanczos_loop tqli H dim num_Eig conv_req fuel' st = Finished st'.
Proof.
  revert fuel' st. induction fuel as [|fuel IH]; intros fuel' st Hf Hle.
  - simpl in Hf. destruct (continues conv_req st) eqn:Hc; [done|].
    injection Hf as <-. by apply lanczos_loop_finished.
  - destruct (continues conv_req st) eqn:Hc.
    + destruct fuel' as [|fuel']; [lia|].
      rewrite lanczos_loop_step in Hf |- * by done.
      destruct (lanczos_round tqli H dim num_Eig st); [|done].
      apply IH; [done | lia].
    + rewrite lanczos_loop_finished in Hf |- * by done. done.
Qed.

(** The loop is left through the convergence test and nothing else,
    and what the rounds preserve holds when it is left. *)
Lemma lanczos_loop_exit (P : state -> Prop) fuel st st' :
  (forall s s', P s -> lanczos_round tqli H dim num_Eig s = Some s' -> P s') ->
  P st ->
  lanczos_loop tqli H dim num_Eig conv_req fuel st = Finished st' ->
  continues conv_req st' = false /\ P st'.
Proof.
  intros Hround. revert st. induction fuel as [|fuel IH]; intros st Hs Hf.
  - simpl in Hf. destruct (continues conv_req st) eqn:Hc; [done|].
    by injection Hf as <-.
  - destruct (continues conv_req st) eqn:Hc.
    + rewrite lanczos_loop_step in Hf by done.
      destruct (lanczos_round tqli H dim num_Eig st) as [s1|] eqn:Hr;
        [|done].
      eapply IH; [|done]. by eapply Hround.
    + rewrite lanczos_loop_finished in Hf by done.
      by injection Hf as <-.
Qed.

(** What is returned does not depend on the content of [y]. *)
Lemma lanczos_loop_with_y fuel st y0 :
  h_ordered (lanczos_loop tqli H dim num_Eig conv_req fuel (with_y y0 st))
  = h_ordered (lanczos_loop tqli H dim num_Eig conv_req fuel st).
Proof.
  revert st y0. induction fuel as [|fuel IH]; intros st y0.
  - simpl. unfold continues. simpl. by destruct (_ <? _)%float.
  - destruct (continues conv_req st) eqn:Hc.
    + rewrite !lanczos_loop_step by done.
      rewrite lanczos_round_with_y.
      destruct (lanczos_round tqli H dim num_Eig st); simpl; [apply IH|done].
    + by rewrite !lanczos_loop_finished.
Qed.

End Round.

(** With a solver that works in place, a call that returns has its
    buffers at their allocated sizes, and these are the sizes it started
    with: no call of [lanczos.cu] that returns has grown a buffer. *)
Lemma lanczos_never_grows tqli fuel H dim cap k conv_req st :
  in_place tqli ->
  lanczos tqli fuel H dim cap k conv_req = Finished st ->
  allocated dim st /\ max_Iter st = cap.
Proof.
  unfold lanczos. intros Hp Hf.
  destruct (lanczos_init H dim cap k) as [st0|] eqn:Hi; [|done].
  apply lanczos_init_inv in Hi as (_ & (Hm & _) & _ & _ & Ha).
  apply (lanczos_loop_exit _ _ _ _ _
           (fun s => allocated dim s /\ max_Iter s = cap)) in Hf
    as (_ & Hs); [done | |done].
  intros s s' [Hs <-] Hr. split.
  - by eapply allocated_round.
  - by eapply round_never_grows.
Qed.

Lemma legacy_grows_earlier it cap :
  Legacy.grows it cap = true -> grows (S it) cap = true.
Proof.
  unfold Legacy.grows. rewrite bool_decide_eq_true, grows_spec. lia.
Qed.

(** * The claims of the design document *)

(** ** The spectrum that is returned *)

(** What [d_ordered] is after the extraction: the first [num_Eig]
    entries of the sorted buffer, all [max_Iter] slots of it. *)
Lemma lanczos_extract_ordered tqli num_Eig st st' :
  lanczos_extract tqli num_Eig st = Some st' ->
  length (d_ordered st) = num_Eig ->
  d_ordered st'
  = take num_Eig (thrust_sort (tqli (d_diag st) (d_offdia st) (iter st + 1))).
Proof.
  intros (gs & _ & _ & (_ & -> & _))%lanczos_extract_inv Hl.
  by rewrite drop_ge, app_nil_r by lia.
Qed.

(** C1.  The spectrum that is returned is meant to be the [num_Eig]
    smallest eigenvalues of the current projection, taken among its
    [iter+1] entries.  The call on [[2 1] [1 3]] with capacity 4 and two
    eigenvalues asked for ends after one round: the solver has left
    [0, 83] in the two entries of the projection, and the routine
    returns [0, 0], the unused slots of the buffer having been sorted in
    front of 83. *)
Theorem C1_spectrum_counts_unused_slots :
  exists st0 st1 st,
    lanczos_init H_sym 2 4 2 = Some st0 /\
    lanczos_recurrence H_sym 2 st0 = Some st1 /\
    lanczos tqli 1 H_sym 2 4 2 tol = Finished st /\
    iter st = 1 /\
    tqli (d_diag st1) (d_offdia st1) (iter st1 + 1) = [0; 83; 0; 0]%float /\
    smallest_eigenvalues 2 (iter st1 + 1)
      (tqli (d_diag st1) (d_offdia st1) (iter st1 + 1)) = [0; 83]%float /\
    h_ordered (Finished st) = Some [0; 0]%float.
Proof.
  do 3 eexists.
  split; [vm_compute; reflexivity|].
  split; [vm_compute; reflexivity|].
  split; [vm_compute; reflexivity|].
  repeat split; vm_compute; reflexivity.
Qed.

(** ** The recurrence *)

(** C2.  The residual is meant to be [H v_i - alpha_i v_i - beta_i
    v_(i-1)].  In the first round of the loop on [[2 1] [1 3]] the
    vector that becomes the next Lanczos vector is the value of
    [residual], whose first entry is below -340, while the three-term
    residual of the design document has a first entry above 318: the
    loop adds both corrections. *)
Theorem C2_residual_adds_both_corrections :
  exists st0 st1 a1 b1,
    lanczos_init H_sym 2 4 2 = Some st0 /\
    lanczos_recurrence H_sym 2 st0 = Some st1 /\
    d_a st1 !! 1 = Some a1 /\ d_b st1 !! 1 = Some b1 /\
    v1 st1 = residual H_sym 2 a1 b1 (v0 st0) (v1 st0) /\
    (cuCreal_at (v1 st1) 0 <? -340)%float = true /\
    (318 <? cuCreal_at
              (three_term_residual H_sym 2 a1 b1 (v0 st0) (v1 st0)) 0)%float
    = true /\
    v1 st1 <> three_term_residual H_sym 2 a1 b1 (v0 st0) (v1 st0).
Proof.
  do 4 eexists.
  do 7 (split; [vm_compute; reflexivity|]).
  intros Heq.
  apply (f_equal (fun v => (cuCreal_at v 0 <? 0)%float)) in Heq.
  vm_compute in Heq. discriminate.
Qed.

(** The kernel of the older variant subtracts [alpha y - beta z], which
    adds the second correction; its header documents [x - a y - b z]. *)
Lemma legacy_vecdiff_adds_second_term :
  Legacy.vecdiff [czero] [real 1%float] (real 1%float) [real 0%float]
                 (real 1%float) [real 1%float] 1 = [real 2%float] /\
  Legacy.vecdiff_documented [czero] [real 1%float] (real 1%float)
                 [real 0%float] (real 1%float) [real 1%float] 1
  = [real 0%float].
Proof. split; vm_compute; reflexivity. Qed.

(** Every off-diagonal entry the loop stores is the square root of what
    [cublasDznrm2] returns for the residual. *)
Lemma lanczos_recurrence_beta H dim st st' :
  lanczos_recurrence H dim st = Some st' ->
  d_b st' !! (iter st' + 1)
  = Some (make_cuDoubleComplex (sqrt (Dznrm2 dim (v1 st'))) 0%float).
Proof.
  intros (e & b & (_ & _ & _ & Hl & _) & (_ & -> & _) & (_ & -> & _)
          & (_ & -> & _))%lanczos_recurrence_inv.
  by apply list_lookup_insert_eq.
Qed.

(** C3.  [beta_(i+1)] is meant to be the Euclidean norm of the
    residual.  On [[2 1] [1 3]] the residual of the first round has norm
    5 and [d_b[1]] is [sqrt 5]; in the first round of the loop the norm
    is above 428 and [d_b[2]], its square root, is below 21. *)
Theorem C3_beta_is_root_of_norm :
  exists st0 st1,
    lanczos_init H_sym 2 4 2 = Some st0 /\
    lanczos_recurrence H_sym 2 st0 = Some st1 /\
    Dznrm2 2 (v1 st0) = 5%float /\
    d_b st0 !! 1 = Some (real (sqrt 5)) /\
    d_b st1 !! 2 = Some (real (sqrt (Dznrm2 2 (v1 st1)))) /\
    (428 <? Dznrm2 2 (v1 st1))%float = true /\
    (cuCreal_at (d_b st1) 2 <? 21)%float = true.
Proof.
  do 2 eexists.
  do 2 (split; [vm_compute; reflexivity|]).
  repeat split; vm_compute; reflexivity.
Qed.

(** ** Breakdown *)

(** Counterexample to C4 as stated.  On the 1 x 1 operator [[2]] the
    starting vector is an eigenvector: [alpha_0 = 2] and [beta_1 = 0].
    The quotient [1 / beta_1] is evaluated all the same (it is
    [infinity]), the loop is entered, a whole round is run, and the
    routine returns 0 where [alpha_0] is 2. *)
Lemma C4_breakdown_not_handled :
  exists st0 st,
    lanczos_init H_eig 1 4 1 = Some st0 /\
    d_a st0 !! 0 = Some (real 2%float) /\
    d_b st0 !! 1 = Some (real 0%float) /\
    gamma st0 = real infinity /\
    continues tol st0 = true /\
    lanczos tqli 1 H_eig 1 4 1 tol = Finished st /\
    iter st = 1 /\
    h_ordered (Finished st) = Some [0%float] /\
    lanczos tqli 1 H_eig 1 4 1 tol <> Finished st0.
Proof.
  do 2 eexists.
  split; [vm_compute; reflexivity|].
  do 7 (split; [vm_compute; reflexivity|]).
  intros Heq.
  apply (f_equal (fun r => match r with Finished s => iter s | _ => 0 end))
    in Heq.
  vm_compute in Heq. discriminate.
Qed.

(** C4, amended.  The routine has no test for a vanishing [beta]: when
    a call returns, it has left the loop because the convergence test
    failed, and [gamma] is the quotient [1 / d_b[iter+1]] of the last
    round, which is [infinity] when that entry is zero; the division is
    IEEE division, which does not trap. *)
Theorem C4_no_breakdown_test
    (tqli : solver) (fuel : nat) (H : hamiltonian)
    (dim cap num_Eig : nat) (conv_req : double) (st : state) :
  lanczos tqli fuel H dim cap num_Eig conv_req = Finished st ->
  continues conv_req st = false /\
  exists b,
    d_b st !! (iter st + 1) = Some b /\
    gamma st = make_cuDoubleComplex (1 / cuCreal b)%float 0%float /\
    (cuCreal b = 0%float -> gamma st = make_cuDoubleComplex infinity 0%float).
Proof.
  unfold lanczos. intros Hf.
  destruct (lanczos_init H dim cap num_Eig) as [st0|] eqn:Hi; [|done].
  apply lanczos_init_inv in Hi as (_ & _ & _ & Hs & _).
  apply (lanczos_loop_exit _ _ _ _ _ scaled_by_last_beta) in Hf
    as (Hc & b & Hb & Hg);
    [|intros s s' _; by apply scaled_by_last_beta_round | done].
  split; [done|]. exists b. split_and!; [done..|].
  intros Hz. by rewrite Hg, Hz.
Qed.

Lemma C4_no_breakdown_test_witness :
  exists st,
    lanczos tqli 1 H_eig 1 4 1 tol = Finished st /\
    continues tol st = false /\
    exists b,
      d_b st !! (iter st + 1) = Some b /\
      gamma st = make_cuDoubleComplex (1 / cuCreal b)%float 0%float /\
      (cuCreal b = 0%float ->
       gamma st = make_cuDoubleComplex infinity 0%float).
Proof.
  eexists. split; [vm_compute; reflexivity|].
  apply (C4_no_breakdown_test tqli 1 H_eig 1 4 1 tol).
  vm_compute. reflexivity.
Defined.

(** ** Growth of the buffers *)






(** ** Dimensions *)




(** ** Normalisation *)

(** C8.  In every round the quotient [1 / beta_(i+1)] reaches the
    scratch vector [y] only, through [axpy]; [y] is never read, since a
    round started with another [y] differs in [y] alone.  The residual
    itself becomes the next Lanczos vector [v1], it moves on to [v0],
    and the store receives [v0] entry for entry: two rounds later the
    block of the store is the residual, unscaled. *)
Theorem C8_normalisation_only_reaches_y
    (tqli : solver) (H : hamiltonian) (dim num_Eig : nat) (st st' : state) :
  lanczos_round tqli H dim num_Eig st = Some st' ->
  exists b_iter,
    d_b st !! S (iter st) = Some b_iter /\
    let w := residual H dim (Zdotc dim (v1 st) (csrmv H dim (v1 st))) b_iter
                      (v0 st) (v1 st) in
    let beta := sqrt (Dznrm2 dim w) in
    d_b st' !! (iter st' + 1) = Some (make_cuDoubleComplex beta 0%float) /\
    gamma st' = make_cuDoubleComplex (1 / beta)%float 0%float /\
    y st' = Zaxpy dim (gamma st') w (y st) /\
    (forall y0,
       lanczos_round tqli H dim num_Eig (with_y y0 st)
       = Some (with_y (Zaxpy dim (gamma st') w y0) st')) /\
    v1 st' = w /\
    v0 st' = v1 st /\
    (forall j, j < dim -> d_lanczvec st' !! (dim * iter st + j) = v0 st !! j) /\
    (forall st2 st3,
       lanczos_round tqli H dim num_Eig st' = Some st2 ->
       lanczos_round tqli H dim num_Eig st2 = Some st3 ->
       forall j, j < dim -> d_lanczvec st3 !! (dim * iter st2 + j) = w !! j).
Proof.
  intros Hr.
  pose proof Hr as (b_iter & Hb & _ & Hbn & Hg & Hy & Hv1 & Hv0 & Hst)
    %lanczos_round_vectors.
  exists b_iter. split; [done|]. simpl. split_and!; try done.
  - intros y0. rewrite lanczos_round_with_y, Hr. simpl.
    by rewrite Hv1.
  - intros st2 st3 H2 H3 j Hj.
    apply lanczos_round_vectors in H2 as (b2 & _ & _ & _ & _ & _ & _ & E0 & _).
    apply lanczos_round_vectors in H3 as (b3 & _ & _ & _ & _ & _ & _ & _ & Es).
    by rewrite Es, E0, Hv1.
Qed.

Lemma C8_normalisation_only_reaches_y_witness :
  exists st st',
    lanczos_init H_sym 2 4 2 = Some st /\
    lanczos_round tqli H_sym 2 2 st = Some st' /\
    exists b_iter,
      d_b st !! S (iter st) = Some b_iter /\
      let w := residual H_sym 2 (Zdotc 2 (v1 st) (csrmv H_sym 2 (v1 st)))
                        b_iter (v0 st) (v1 st) in
      let beta := sqrt (Dznrm2 2 w) in
      d_b st' !! (iter st' + 1) = Some (make_cuDoubleComplex beta 0%float) /\
      gamma st' = make_cuDoubleComplex (1 / beta)%float 0%float /\
      y st' = Zaxpy 2 (gamma st') w (y st) /\
      (forall y0,
         lanczos_round tqli H_sym 2 2 (with_y y0 st)
         = Some (with_y (Zaxpy 2 (gamma st') w y0) st')) /\
      v1 st' = w /\
      v0 st' = v1 st /\
      (forall j, j < 2 -> d_lanczvec st' !! (2 * iter st + j) = v0 st !! j) /\
      (forall st2 st3,
         lanczos_round tqli H_sym 2 2 st' = Some st2 ->
         lanczos_round tqli H_sym 2 2 st2 = Some st3 ->
         forall j, j < 2 -> d_lanczvec st3 !! (2 * iter st2 + j) = w !! j).
Proof.
  do 2 eexists.
  split; [vm_compute; reflexivity|].
  split; [vm_compute; reflexivity|].
  apply (C8_normalisation_only_reaches_y tqli H_sym 2 2).
  vm_compute. reflexivity.
Defined.

(** The first round does the same: [v1] is the residual as it is, and
    [1 / beta_1] reaches [y] only. *)
Lemma lanczos_init_vectors H dim cap k st :
  lanczos_init H dim cap k = Some st ->
  exists a0,
    d_a st !! 0 = Some a0 /\
    v1 st = Zaxpy dim (cuCmul (make_cuDoubleComplex (-1)%float 0%float) a0)
                  (v0 st) (csrmv H dim (v0 st)) /\
    d_b st !! 1
    = Some (make_cuDoubleComplex (sqrt (Dznrm2 dim (v1 st))) 0%float) /\
    gamma st
    = make_cuDoubleComplex (1 / sqrt (Dznrm2 dim (v1 st)))%float 0%float /\
    y st = Zaxpy dim (gamma st) (v1 st) (replicate dim czero).
Proof.
  unfold lanczos_init. intros Hi.
  apply bind_Some in Hi as (u & _ & Hi).
  apply bind_Some in Hi as (w & (_ & _ & ->)%cusparseZcsrmv_inv & Hi).
  apply bind_Some in Hi as (a & Ha & Hi).
  apply bind_Some in Hi as (b & Hb & Hi).
  apply bind_Some in Hi as (a0 & Ha0 & Hi).
  apply bind_Some in Hi as (b' & Hb' & Hi).
  apply bind_Some in Hi as (b1 & Hb1 & Hi).
  injection Hi as <-. simpl.
  pose proof (write_lookup _ _ _ _ Hb') as Hw. rewrite Hb1 in Hw.
  injection Hw as ->.
  exists a0. split_and!; done.
Qed.

(** The vectors in the store are not of norm 1.  In the call on [-I]
    with capacity 8, after three rounds the third block of the store is
    the residual of the first round, of norm above 2, and the first
    block is the starting vector, of norm above 1. *)
Lemma stored_vectors_not_unit :
  exists st0 st1 st2 st3,
    lanczos_init H_neg 2 8 1 = Some st0 /\
    lanczos_round tqli H_neg 2 1 st0 = Some st1 /\
    lanczos_round tqli H_neg 2 1 st1 = Some st2 /\
    lanczos_round tqli H_neg 2 1 st2 = Some st3 /\
    take 2 (drop 4 (d_lanczvec st3)) = v1 st1 /\
    (2 <? Dznrm2 2 (v1 st1))%float = true /\
    (1 <? Dznrm2 2 (take 2 (d_lanczvec st3)))%float = true.
Proof.
  do 4 eexists.
  do 4 (split; [vm_compute; reflexivity|]).
  repeat split; vm_compute; reflexivity.
Qed.

(** ** The diagonal handed to the solver *)

(** Counterexample to C9 as stated.  In the call on [-I] the first
    round leaves the sorted buffer [-2, 0, 0, 0] in [d_diag]; the loop
    goes on, and the diagonal the second round hands to the solver
    begins with -2. *)
Lemma C9_first_diagonal_negative_in_round_two :
  exists st0 st1 st2,
    lanczos_init H_neg 2 4 1 = Some st0 /\
    lanczos_round tqli H_neg 2 1 st0 = Some st1 /\
    continues tol st1 = true /\
    lanczos_recurrence H_neg 2 st1 = Some st2 /\
    iter st2 = 2 /\
    d_diag st2 !! 0 = Some (-2)%float /\
    d_diag st2 !! 0 <> Some 0%float.
Proof.
  do 3 eexists.
  do 6 (split; [vm_compute; reflexivity|]).
  intros Heq.
  apply (f_equal (fun o => (default 0 o <? 0)%float)) in Heq.
  vm_compute in Heq. discriminate.
Qed.

(** C9, amended.  Before the solver is called a round writes
    [d_diag[iter]] with [iter >= 1] and leaves [d_diag[0]] as it found
    it, so that [alpha_0] never gets there.  In the first round of the
    loop the entry is 0; in a later round it is the first entry of the
    buffer the round before has sorted. *)
Theorem C9_first_diagonal_passes_through
    (tqli : solver) (H : hamiltonian) (dim num_Eig : nat)
    (st st1 : state) :
  lanczos_recurrence H dim st = Some st1 ->
  d_diag st1 !! 0 = d_diag st !! 0 /\
  (forall cap, lanczos_init H dim cap num_Eig = Some st ->
               d_diag st1 !! 0 = Some 0%float) /\
  (forall st2 st3 d0,
     lanczos_extract tqli num_Eig st1 = Some st2 ->
     thrust_sort (tqli (d_diag st1) (d_offdia st1) (iter st1 + 1)) !! 0
     = Some d0 ->
     lanczos_recurrence H dim (lanczos_grow dim st2) = Some st3 ->
     d_diag st3 !! 0 = Some d0).
Proof.
  intros H1.
  assert (Hpass : forall s s', lanczos_recurrence H dim s = Some s' ->
                               d_diag s' !! 0 = d_diag s !! 0).
  { intros s s' (e & b & _ & _ & (_ & _ & -> & _) & _)%lanczos_recurrence_inv.
    by apply list_lookup_insert_ne. }
  split_and!.
  - by apply Hpass.
  - intros cap Hi. rewrite (Hpass _ _ H1).
    apply lanczos_init_inv in Hi as (Hc & _ & (_ & _ & -> & _) & _).
    apply lookup_replicate_2. lia.
  - intros st2 st3 d0 H2 Hd0 H3. rewrite (Hpass _ _ H3).
    apply lanczos_extract_inv in H2 as (gs & _ & _ & (Hd & _)).
    rewrite <- Hd in Hd0.
    destruct (lanczos_grow_lookup dim st2 0) as (_ & _ & Hg & _); [lia|].
    rewrite Hg; [done|]. by eapply lookup_lt_Some.
Qed.

Lemma C9_first_diagonal_passes_through_witness :
  exists st st1,
    lanczos_init H_neg 2 4 1 = Some st /\
    lanczos_recurrence H_neg 2 st = Some st1 /\
    d_diag st1 !! 0 = d_diag st !! 0 /\
    (forall cap, lanczos_init H_neg 2 cap 1 = Some st ->
                 d_diag st1 !! 0 = Some 0%float) /\
    (forall st2 st3 d0,
       lanczos_extract tqli 1 st1 = Some st2 ->
       thrust_sort (tqli (d_diag st1) (d_offdia st1) (iter st1 + 1)) !! 0
       = Some d0 ->
       lanczos_recurrence H_neg 2 (lanczos_grow 2 st2) = Some st3 ->
       d_diag st3 !! 0 = Some d0).
Proof.
  do 2 eexists.
  split; [vm_compute; reflexivity|].
  split; [vm_compute; reflexivity|].
  apply (C9_first_diagonal_passes_through tqli H_neg 2 1).
  vm_compute. reflexivity.
Defined.

(** ** A tolerance of 1 or more *)

(** Counterexample to C10 as stated.  "For every input" includes a
    capacity of 1: the first round then writes [d_b[1]] outside [d_b],
    before the test of the loop is reached, and no output is defined,
    with a tolerance of 1 as with any other. *)
Lemma C10_capacity_below_two :
  (1 <=? 1)%float = true /\
  representable H_sym 2 1 2 = true /\
  addressable H_sym 2 = true /\
  forall tqli fuel,
    lanczos tqli fuel H_sym 2 1 2 1%float = Overrun /\
    h_ordered (lanczos tqli fuel H_sym 2 1 2 1%float) = None.
Proof. repeat split. Qed.

(** C10, amended.  Where the first round is defined, that is with a
    capacity of at least 2 (for [d_b[1]]), an operator whose entries are
    inside the [dim] x [dim] block and sizes that are [int]s, a
    tolerance [conv_req >= 1] makes the test of line 342 fail at once,
    [|1 - 0| > conv_req] being false: no round of the loop is run and
    the routine returns [num_Eig] zeros, whatever the values of the
    operator and its dimension. *)
Theorem C10_no_round_when_tolerance_at_least_one
    (tqli : solver) (fuel : nat) (H : hamiltonian)
    (dim cap num_Eig : nat) (conv_req : double) :
  representable H dim cap num_Eig = true ->
  addressable H dim = true ->
  2 <= cap ->
  (1 <=? conv_req)%float = true ->
  exists st,
    lanczos_init H dim cap num_Eig = Some st /\
    lanczos tqli fuel H dim cap num_Eig conv_req = Finished st /\
    iter st = 0 /\
    h_ordered (lanczos tqli fuel H dim cap num_Eig conv_req)
    = Some (replicate num_Eig 0%float).
Proof.
  intros Hr Ha Hcap Hconv.
  destruct (lanczos_init_Some H dim cap num_Eig Hr Ha Hcap) as [st Hst].
  pose proof (lanczos_init_inv _ _ _ _ _ Hst)
    as (_ & (_ & Hit & Hord & _ & Hgs & Het) & _).
  assert (Hfin : lanczos tqli fuel H dim cap num_Eig conv_req = Finished st).
  { unfold lanczos. rewrite Hst. apply lanczos_loop_finished.
    unfold continues. rewrite Hgs, Het.
    change (abs (1 - 0))%float with 1%float. by apply leb_not_ltb. }
  exists st. rewrite Hfin. simpl. by rewrite Hord.
Qed.

Lemma C10_no_round_when_tolerance_at_least_one_witness :
  representable H_sym 2 4 2 = true /\
  addressable H_sym 2 = true /\
  2 <= 4 /\
  (1 <=? 1)%float = true /\
  exists st,
    lanczos_init H_sym 2 4 2 = Some st /\
    lanczos tqli 0 H_sym 2 4 2 1%float = Finished st /\
    iter st = 0 /\
    h_ordered (lanczos tqli 0 H_sym 2 4 2 1%float)
    = Some (replicate 2 0%float).
Proof.
  split; [reflexivity|]. split; [reflexivity|]. split; [lia|].
  split; [reflexivity|].
  apply (C10_no_round_when_tolerance_at_least_one tqli 0 H_sym 2 4 2 1%float);
    [reflexivity | reflexivity | lia | reflexivity].
Defined.

(** * Further properties of the code *)

(** ** Kernel launches *)

Lemma foldl_ext {A B} (f g : A -> B -> A) (l : list B) (x : A) :
  (forall a b, f a b = g a b) -> foldl f x l = foldl g x l.
Proof.
  intros E. revert x. induction l as [|b l IH]; intros x; simpl; [done|].
  by rewrite E, IH.
Qed.

Lemma fmap_const_seq {A} (v : A) j n :
  (fun _ => v) <$> seq j n = replicate n v.
Proof.
  revert j. induction n as [|n IH]; intros j; simpl; [done|]. by rewrite IH.
Qed.

(** A kernel whose threads use their global index only runs its body
    once for every index below the size of the grid. *)
Lemma launch_flat {M} (step : nat -> M -> option M) (k : kernel M)
    (gridDim blockDim : nat) (mem : M) :
  (forall b t x, k blockDim b t x = step (blockDim * b + t) x) ->
  launch gridDim blockDim k mem
  = foldl (fun mem i => mem ≫= step i) (Some mem) (seq 0 (gridDim * blockDim)).
Proof.
  intros Hk. unfold launch. generalize (Some mem) as o.
  induction gridDim as [|g IH]; intros o; [done|].
  rewrite seq_S, foldl_app. simpl foldl at 1. rewrite IH.
  replace (S g * blockDim) with (g * blockDim + blockDim) by lia.
  rewrite seq_app, foldl_app. simpl.
  generalize (foldl (fun mem i => mem ≫= step i) o (seq 0 (g * blockDim))).
  intros o'.
  replace (seq (g * blockDim) blockDim)
    with (Nat.add (g * blockDim) <$> seq 0 blockDim)
    by (rewrite fmap_add_seq; f_equal; lia).
  rewrite foldl_fmap. apply foldl_ext. intros [x|] t; [|done]. simpl.
  by rewrite Hk, (Nat.mul_comm blockDim g).
Qed.

Section Store.
Context {A : Type}.
Variables (m : nat) (g : nat -> nat) (f : nat -> option A).
Implicit Types a : list A.

Lemma threads_S n a :
  threads m g f (S n) a = threads m g f n a ≫= store_at m g f n.
Proof. unfold threads. by rewrite seq_S, foldl_app. Qed.

Lemma threads_length n a a' :
  threads m g f n a = Some a' -> length a' = length a.
Proof.
  revert a'. induction n as [|n IH]; intros a'.
  - by intros [= <-].
  - rewrite threads_S. intros (a1 & H1 & Hs)%bind_Some.
    rewrite <- (IH _ H1). unfold store_at in Hs.
    destruct (decide _); [|by injection Hs as <-].
    apply bind_Some in Hs as (v & _ & [_ ->]%write_inv).
    by rewrite length_insert.
Qed.

(** Where every thread in range stores inside the buffer the launch
    goes through: a cell that a thread stores into holds what that
    thread stored, and every other cell is as it was. *)
Lemma threads_run n a :
  (forall i, i < m -> i < n -> g i < length a /\ is_Some (f i)) ->
  (forall i j, i < m -> j < m -> i < n -> j < n -> g i = g j -> i = j) ->
  exists a',
    threads m g f n a = Some a' /\
    (forall i, i < m -> i < n -> a' !! g i = f i) /\
    (forall k, (forall i, i < m -> i < n -> g i <> k) -> a' !! k = a !! k).
Proof.
  intros Hin Hinj. induction n as [|n IH].
  - exists a. split; [done|]. split; [lia|done].
  - destruct IH as (a1 & H1 & Hw & Hf);
      [intros; apply Hin; lia | intros; apply Hinj; lia |].
    rewrite threads_S, H1. simpl. unfold store_at.
    destruct (decide (n < m)) as [Hn|Hn].
    + destruct (Hin n) as [Hl [v Hv]]; [lia..|].
      rewrite Hv. simpl.
      rewrite write_Some by (by rewrite (threads_length _ _ _ H1)).
      eexists. split; [done|]. split.
      * intros i Hi Hi'. destruct (decide (i = n)) as [->|Hne].
        -- rewrite list_lookup_insert_eq
             by (by rewrite (threads_length _ _ _ H1)).
           done.
        -- rewrite list_lookup_insert_ne; [apply Hw; lia|].
           intros E. apply Hinj in E; lia.
      * intros k Hk. rewrite list_lookup_insert_ne by (apply Hk; lia).
        apply Hf. intros; apply Hk; lia.
    + exists a1. split; [done|]. split.
      * intros i Hi Hi'. apply Hw; lia.
      * intros k Hk. apply Hf. intros; apply Hk; lia.
Qed.

(** One thread in range that reads or stores outside its buffer makes
    the launch an overrun. *)
Lemma threads_overrun n a i :
  i < m -> i < n -> length a <= g i \/ f i = None ->
  threads m g f n a = None.
Proof.
  intros Hm Hn Hbad. induction n as [|n IH]; [lia|].
  rewrite threads_S. destruct (threads m g f n a) as [a1|] eqn:H1; [|done].
  destruct (decide (i = n)) as [->|Hne]; [|discriminate IH; lia].
  simpl. unfold store_at. rewrite decide_True by done.
  destruct Hbad as [Hl| ->]; [|done].
  destruct (f n); [|done]. simpl. unfold write.
  rewrite decide_False; [done|]. rewrite (threads_length _ _ _ H1). lia.
Qed.
End Store.

(** Threads that store into the cell of their own index: the first
    [min m n] cells hold what the threads stored. *)
Lemma threads_pointwise {A} (m : nat) (f : nat -> option A) (h : nat -> A)
    (n : nat) (a : list A) :
  let c := min m n in
  c <= length a ->
  (forall i, i < c -> f i = Some (h i)) ->
  threads m id f n a = Some ((h <$> seq 0 c) ++ drop c a).
Proof.
  intros c Hc Hf.
  destruct (threads_run m id f n a) as (a' & Hr & Hw & Ho).
  - intros i Hi Hi'. split; [unfold id, c in *; lia|].
    rewrite Hf by (unfold c; lia). done.
  - unfold id. intros; done.
  - rewrite Hr. f_equal. apply list_eq. intros k.
    destruct (decide (k < c)) as [Hk|Hk].
    + pose proof (Hw k) as E. unfold id in E.
      rewrite E by (unfold c in *; lia).
      rewrite lookup_app_l by (rewrite length_fmap, length_seq; done).
      rewrite list_lookup_fmap, lookup_seq_lt by done. simpl. apply Hf. done.
    + rewrite Ho by (unfold id, c in *; intros; lia).
      rewrite lookup_app_r; rewrite length_fmap, length_seq; [|lia].
      rewrite lookup_drop. f_equal. lia.
Qed.

(** A kernel that stores one value in the cell of its own index. *)
Lemma launch_fill {A} (k : kernel (list A)) (v : A) (m gridDim blockDim : nat)
    (a : list A) :
  let c := min m (gridDim * blockDim) in
  (forall b t x, k blockDim b t x
                 = store_at m id (fun _ => Some v) (blockDim * b + t) x) ->
  c <= length a ->
  launch gridDim blockDim k a = Some (replicate c v ++ drop c a).
Proof.
  intros c Hk Hc. rewrite (launch_flat _ _ _ _ _ Hk).
  fold (threads m id (fun _ => Some v) (gridDim * blockDim) a).
  rewrite (threads_pointwise _ _ (fun _ => v)) by done.
  by rewrite fmap_const_seq.
Qed.

Lemma zero_store m bd b t x :
  zero m bd b t x = store_at m id (fun _ => Some czero) (bd * b + t) x.
Proof. unfold zero, store_at. by destruct (decide _). Qed.

Lemma zero_double_store m bd b t x :
  zero_double m bd b t x
  = store_at m id (fun _ => Some 0%float) (bd * b + t) x.
Proof. unfold zero_double, store_at. by destruct (decide _). Qed.

Lemma unitdiag_store m bd b t x :
  unitdiag m bd b t x
  = store_at m (fun i => i + m * i) (fun _ => Some 1%float) (bd * b + t) x.
Proof. unfold unitdiag, store_at. by destruct (decide _). Qed.

Lemma assignr_store v n bd b t x :
  Legacy.assignr v n bd b t x
  = store_at n id (fun _ => Some (make_cuDoubleComplex v 0%float))
             (bd * b + t) x.
Proof. unfold Legacy.assignr, store_at. by destruct (decide _). Qed.

Lemma assign_store v n bd b t x :
  Legacy.assign v n bd b t x
  = store_at n id (fun _ => Some v) (bd * b + t) x.
Proof. unfold Legacy.assign, store_at. by destruct (decide _). Qed.

Lemma complextodoubler_store a n bd b t x :
  Legacy.complextodoubler a n bd b t x
  = store_at (S n) id (fun i => cuCreal <$> a !! i) (bd * b + t) x.
Proof.
  unfold Legacy.complextodoubler, store_at, id.
  destruct (decide (_ <= n)), (decide (_ < S n)); try lia; [|done].
  by destruct (a !! _).
Qed.

Lemma complextodoubler2_store a n bd b t x :
  Legacy.complextodoubler2 a n bd b t x
  = store_at (S n) id
      (fun i => if decide (i < n) then cuCreal <$> a !! (i + 1)
                else Some 0%float)
      (bd * b + t) x.
Proof.
  unfold Legacy.complextodoubler2, store_at, id.
  generalize (bd * b + t). intros i.
  replace (i + 1 - 1) with i by lia.
  destruct (decide (i + 1 <= n)), (decide (i < S n)), (decide (i < n)),
    (decide (i + 1 = n + 1)); try lia; simpl; try done.
  destruct (a !! _); simpl; [|done]. by destruct (write _ _ _).
Qed.

(** The grid of [<<<bpg, tpb>>>] has a thread for every index below
    [dim]. *)
Lemma bpg_covers dim : dim <= bpg dim * tpb.
Proof.
  unfold bpg, tpb.
  pose proof (Nat.div_mod_eq (dim + 256 - 1) 256) as E.
  pose proof (Nat.mod_upper_bound (dim + 256 - 1) 256). lia.
Qed.

(** X1.  The launch [zero<<<dim/512 + 1, 512>>>(y, dim)] of line 255
    clears all of [y]: whatever the [dim] cells of the fresh allocation
    hold, every one of them is [0 + 0i] afterwards (the grid has more
    than [dim] threads for every [dim], and the guard [i < m] keeps the
    surplus threads from storing). *)
Theorem zero_clears_y (y : list cuDoubleComplex) :
  launch (length y / 512 + 1) 512 (zero (length y)) y
  = Some (replicate (length y) czero).
Proof.
  rewrite (launch_fill _ czero (length y)) by (apply zero_store || lia).
  pose proof (Nat.div_mod_eq (length y) 512) as E.
  pose proof (Nat.mod_upper_bound (length y) 512).
  rewrite Nat.min_l by lia. by rewrite drop_all, app_nil_r.
Qed.

(** X2.  The two launches of lines 426-427, [zero] and [unitdiag] with
    [m = iter] on the matrix [d_H_eigen], do not make it the identity.
    With enough threads for [iter] and room for [iter * iter] cells
    they go through; the diagonal cells [i + iter*i] hold 1, the cells
    [1 .. iter-1] hold 0, and every other cell from [iter] on keeps what
    the allocation held: [zero] clears [iter] cells, not [iter * iter].
    For [iter >= 2] the cell [iter], next to the diagonal, is one of
    them. *)
Theorem d_H_eigen_setup_not_identity (dim iter : nat)
    (d_H_eigen : list double) :
  iter <= bpg dim * tpb ->
  iter * iter <= length d_H_eigen ->
  exists z,
    d_H_eigen_setup dim iter d_H_eigen = Some z /\
    length z = length d_H_eigen /\
    (forall i, i < iter -> z !! (i + iter * i) = Some 1%float) /\
    (forall k, 0 < k < iter -> z !! k = Some 0%float) /\
    (forall k, iter <= k -> (forall i, i < iter -> k <> i + iter * i) ->
               z !! k = d_H_eigen !! k) /\
    (2 <= iter -> z !! iter = d_H_eigen !! iter).
Proof.
  intros Hg Hl. unfold d_H_eigen_setup.
  rewrite (launch_fill _ 0%float iter) by (apply zero_double_store || nia).
  rewrite Nat.min_l by done. simpl.
  rewrite (launch_flat _ _ _ _ _ (unitdiag_store iter tpb)).
  set (z1 := replicate iter 0%float ++ drop iter d_H_eigen).
  assert (Hz1 : length z1 = length d_H_eigen).
  { unfold z1. rewrite length_app, length_replicate, length_drop. nia. }
  destruct (threads_run iter (fun i => i + iter * i) (fun _ => Some 1%float)
              (bpg dim * tpb) z1) as (z & Hr & Hw & Ho).
  - intros i Hi _. split; [rewrite Hz1; nia | done].
  - intros i j _ _ _ _. nia.
  - exists z. split; [exact Hr|].
    assert (Hrest : forall k, iter <= k ->
              (forall i, i < iter -> k <> i + iter * i) ->
              z !! k = d_H_eigen !! k).
    { intros k Hk Hne. rewrite Ho by (intros i Hi _ E; by apply (Hne i)).
      unfold z1. rewrite lookup_app_r; rewrite length_replicate; [|done].
      rewrite lookup_drop. f_equal. lia. }
    split_and!.
    + rewrite <- Hz1. by eapply threads_length.
    + intros i Hi. apply Hw; lia.
    + intros k Hk. rewrite Ho by (intros [|i] Hi _ E; [lia | nia]).
      unfold z1. rewrite lookup_app_l by (rewrite length_replicate; lia).
      apply lookup_replicate_2. lia.
    + exact Hrest.
    + intros H2. apply Hrest; [done|]. intros [|i] Hi E; [lia | nia].
Qed.

Lemma d_H_eigen_setup_not_identity_witness :
  2 <= bpg 2 * tpb /\
  2 * 2 <= length [5; 6; 7; 8]%float /\
  exists z,
    d_H_eigen_setup 2 2 [5; 6; 7; 8]%float = Some z /\
    length z = length [5; 6; 7; 8]%float /\
    (forall i, i < 2 -> z !! (i + 2 * i) = Some 1%float) /\
    (forall k, 0 < k < 2 -> z !! k = Some 0%float) /\
    (forall k, 2 <= k -> (forall i, i < 2 -> k <> i + 2 * i) ->
               z !! k = [5; 6; 7; 8]%float !! k) /\
    (2 <= 2 -> z !! 2 = [5; 6; 7; 8]%float !! 2).
Proof.
  split; [vm_compute; lia|]. split; [simpl; lia|].
  apply (d_H_eigen_setup_not_identity 2 2 [5; 6; 7; 8]%float);
    [vm_compute; lia | simpl; lia].
Defined.

(** X3.  The older variant builds its vectors with
    [assignr<<<bpg, tpb>>>(v, b, dim)] (lines 272 and 301): for every
    [dim] the grid of [bpg = (dim + 255)/256] blocks of 256 threads
    reaches all [dim] entries, and whatever [v] held, every entry is
    [b + 0i] afterwards. *)
Theorem legacy_assignr_fills (b : double) (v : list cuDoubleComplex) :
  launch (bpg (length v)) tpb (Legacy.assignr b (length v)) v
  = Some (replicate (length v) (make_cuDoubleComplex b 0%float)).
Proof.
  rewrite (launch_fill _ (make_cuDoubleComplex b 0%float) (length v))
    by (apply assignr_store || lia).
  rewrite Nat.min_l by apply bpg_covers. by rewrite drop_all, app_nil_r.
Qed.

(** X4.  [assign<<<bpg, tpb>>>(d_ordered, 0., num_Eig)] (line 323 of
    the older variant) is launched on a grid sized by [dim], not by
    [n = num_Eig].  For [n <= dim] it sets the first [n] entries and
    nothing else; where the grid has no more than [n] threads it stops
    at the size of the grid and the entries from there on keep what they
    held. *)
Theorem legacy_assign_stops_at_grid (dim : nat) (b : double) (n : nat)
    (a : list double) :
  n <= length a ->
  (n <= dim ->
   launch (bpg dim) tpb (Legacy.assign b n) a
   = Some (replicate n b ++ drop n a)) /\
  (bpg dim * tpb <= n ->
   launch (bpg dim) tpb (Legacy.assign b n) a
   = Some (replicate (bpg dim * tpb) b ++ drop (bpg dim * tpb) a)).
Proof.
  intros Hn. pose proof (bpg_covers dim). split; intros Hd.
  - rewrite (launch_fill _ b n) by (apply assign_store || lia).
    by rewrite Nat.min_l by lia.
  - rewrite (launch_fill _ b n) by (apply assign_store || lia).
    by rewrite Nat.min_r by lia.
Qed.

Lemma legacy_assign_stops_at_grid_witness :
  300 <= length (replicate 300 1%float) /\
  (300 <= 1 ->
   launch (bpg 1) tpb (Legacy.assign 0%float 300) (replicate 300 1%float)
   = Some (replicate 300 0%float ++ drop 300 (replicate 300 1%float))) /\
  (bpg 1 * tpb <= 300 ->
   launch (bpg 1) tpb (Legacy.assign 0%float 300) (replicate 300 1%float)
   = Some (replicate (bpg 1 * tpb) 0%float
           ++ drop (bpg 1 * tpb) (replicate 300 1%float))).
Proof.
  split; [rewrite length_replicate; lia|].
  apply (legacy_assign_stops_at_grid 1 0%float 300 (replicate 300 1%float)).
  rewrite length_replicate. lia.
Defined.

(** X5.  [complextodoubler(a, b, n)] copies [n + 1] real parts, not
    [n]: its guard is [i <= n].  On a grid with more than [n] threads,
    if [a] and [b] have more than [n] entries then [b[0..n]] become the
    real parts of [a[0..n]] and the rest of [b] is untouched; if one of
    them has [n] entries or fewer, as the header of the kernel has it
    ("n, the number of elements in the vectors"), the thread [i = n]
    reads or stores outside its buffer. *)
Theorem legacy_complextodoubler_copies (gridDim blockDim : nat)
    (a : list cuDoubleComplex) (n : nat) (b : list double) :
  n < gridDim * blockDim ->
  (n < length a -> n < length b ->
   launch gridDim blockDim (Legacy.complextodoubler a n) b
   = Some ((cuCreal <$> take (S n) a) ++ drop (S n) b)) /\
  (length a <= n \/ length b <= n ->
   launch gridDim blockDim (Legacy.complextodoubler a n) b = None).
Proof.
  intros Hg.
  rewrite (launch_flat _ _ _ _ _ (complextodoubler_store a n blockDim)).
  fold (threads (S n) id (fun i => cuCreal <$> a !! i)
                (gridDim * blockDim) b).
  split.
  - intros Ha Hb.
    rewrite (threads_pointwise _ _
               (fun i => cuCreal (default czero (a !! i)))).
    + rewrite Nat.min_l by lia. do 2 f_equal.
      apply list_eq. intros k. rewrite !list_lookup_fmap.
      destruct (decide (k < S n)) as [Hk|Hk].
      * rewrite lookup_seq_lt, lookup_take_lt by done. simpl.
        destruct (lookup_lt_is_Some_2 a k) as [x ->]; [lia|]. done.
      * rewrite lookup_seq_ge, lookup_take_ge by lia. done.
    + lia.
    + intros i Hi.
      destruct (lookup_lt_is_Some_2 a i) as [x ->]; [lia|]. done.
  - intros Hbad. apply (threads_overrun _ _ _ _ _ n); [lia | lia |].
    unfold id. destruct Hbad as [Ha|Hb]; [right|by left].
    by rewrite lookup_ge_None_2.
Qed.

Lemma legacy_complextodoubler_copies_witness :
  2 < 1 * 4 /\
  (2 < length [real 1%float; real 2%float; real 3%float] ->
   2 < length [7; 8; 9; 10]%float ->
   launch 1 4 (Legacy.complextodoubler
                 [real 1%float; real 2%float; real 3%float] 2)
          [7; 8; 9; 10]%float
   = Some ((cuCreal <$> take 3 [real 1%float; real 2%float; real 3%float])
           ++ drop 3 [7; 8; 9; 10]%float)) /\
  (length [real 1%float; real 2%float; real 3%float] <= 2 \/
   length [7; 8; 9; 10]%float <= 2 ->
   launch 1 4 (Legacy.complextodoubler
                 [real 1%float; real 2%float; real 3%float] 2)
          [7; 8; 9; 10]%float = None).
Proof.
  split; [lia|].
  apply (legacy_complextodoubler_copies 1 4
           [real 1%float; real 2%float; real 3%float] 2 [7; 8; 9; 10]%float).
  lia.
Defined.

(** X6.  [complextodoubler2(a, b, n)] shifts by one: on a grid with
    more than [n] threads and buffers of more than [n] entries, [b[i]]
    becomes the real part of [a[i+1]] for [i < n], [b[n]] becomes 0,
    the rest of [b] is untouched, and [a[0]] is not read. *)
Theorem legacy_complextodoubler2_shifts (gridDim blockDim : nat)
    (a : list cuDoubleComplex) (n : nat) (b : list double) :
  n < gridDim * blockDim -> n < length a -> n < length b ->
  launch gridDim blockDim (Legacy.complextodoubler2 a n) b
  = Some ((cuCreal <$> take n (drop 1 a)) ++ 0%float :: drop (S n) b).
Proof.
  intros Hg Ha Hb.
  rewrite (launch_flat _ _ _ _ _ (complextodoubler2_store a n blockDim)).
  match goal with
  | |- foldl _ _ _ = _ =>
      fold (threads (S n) id
              (fun i => if decide (i < n) then cuCreal <$> a !! (i + 1)
                        else Some 0%float) (gridDim * blockDim) b)
  end.
  rewrite (threads_pointwise _ _
             (fun i => if decide (i < n)
                       then cuCreal (default czero (a !! (i + 1)))
                       else 0%float)).
  - rewrite Nat.min_l by lia. f_equal.
    rewrite seq_S, fmap_app, <- app_assoc. simpl.
    rewrite decide_False by lia. f_equal.
    apply list_eq. intros k. rewrite !list_lookup_fmap.
    destruct (decide (k < n)) as [Hk|Hk].
    + rewrite lookup_seq_lt, lookup_take_lt by done. simpl.
      rewrite decide_True by done. rewrite lookup_drop.
      replace (1 + k) with (k + 1) by lia.
      destruct (lookup_lt_is_Some_2 a (k + 1)) as [x ->]; [lia|]. done.
    + rewrite lookup_seq_ge, lookup_take_ge by lia. done.
  - lia.
  - intros i Hi. destruct (decide (i < n)); [|done].
    destruct (lookup_lt_is_Some_2 a (i + 1)) as [x ->]; [lia|]. done.
Qed.

Lemma legacy_complextodoubler2_shifts_witness :
  2 < 1 * 4 /\
  2 < length [real 1%float; real 2%float; real 3%float] /\
  2 < length [7; 8; 9; 10]%float /\
  launch 1 4 (Legacy.complextodoubler2
                [real 1%float; real 2%float; real 3%float] 2)
         [7; 8; 9; 10]%float
  = Some ((cuCreal <$> take 2 (drop 1 [real 1%float; real 2%float;
                                       real 3%float]))
          ++ 0%float :: drop 3 [7; 8; 9; 10]%float).
Proof.
  split; [lia|]. split; [simpl; lia|]. split; [simpl; lia|].
  apply (legacy_complextodoubler2_shifts 1 4
           [real 1%float; real 2%float; real 3%float] 2 [7; 8; 9; 10]%float);
    simpl; lia.
Defined.

(** ** Doubles *)

Lemma SFcompare_refl (a : spec_float) :
  a <> S754_nan -> SFcompare a a = Some Eq.
Proof.
  destruct a as [[]|[]| |[] m e]; simpl; try done; intros _.
  - rewrite Z.compare_refl. f_equal.
    rewrite Pos.compare_cont_refl. done.
  - rewrite Z.compare_refl. f_equal. apply Pos.compare_cont_refl.
Qed.

(** [x != x] holds of NaN and of nothing else. *)
Lemma nan_spec (x : double) :
  (x =? x)%float = false <-> Prim2SF x = S754_nan.
Proof.
  rewrite (FloatAxioms.eqb_spec x x). unfold SFeqb. split.
  - intros E. destruct (Prim2SF x) eqn:Hx; try done;
      by rewrite SFcompare_refl in E.
  - by intros ->.
Qed.

Lemma SFcompare_total (a b : spec_float) :
  a <> S754_nan -> b <> S754_nan -> is_Some (SFcompare a b).
Proof.
  destruct a as [[]|[]| |[] ? ?], b as [[]|[]| |[] ? ?]; simpl; by eauto.
Qed.

Lemma ltb_leb (a b : double) :
  (a <? b)%float = true -> (a <=? b)%float = true.
Proof.
  rewrite ltb_spec, leb_spec. unfold SFltb, SFleb.
  by destruct (SFcompare _ _) as [[]|].
Qed.

(** On numbers the order is total. *)
Lemma not_ltb_leb (a b : double) :
  number a = true -> number b = true ->
  (a <? b)%float = false -> (b <=? a)%float = true.
Proof.
  unfold number. intros Ha Hb. rewrite ltb_spec, leb_spec.
  unfold SFltb, SFleb.
  destruct (SFcompare_total (Prim2SF a) (Prim2SF b)) as [c Hc].
  - intros E%nan_spec. congruence.
  - intros E%nan_spec. congruence.
  - rewrite Hc, (SFcompare_antisym _ _ _ Hc). by destruct c.
Qed.

Lemma abs_abs (a : double) : abs (abs a) = abs a.
Proof. apply Prim2SF_inj. rewrite !abs_spec. by destruct (Prim2SF a). Qed.

Lemma abs_opp (a : double) : abs (- a) = abs a.
Proof.
  apply Prim2SF_inj. rewrite !abs_spec, opp_spec. by destruct (Prim2SF a).
Qed.

(** X8.  The macro [SIGN(a,b)] of [lanczos.h] never changes the
    magnitude of [a]; a [b] that is NaN counts as negative, since
    [b >= 0.0] is false for it, and [-0.0] counts as non-negative. *)
Theorem SIGN_magnitude (a b : double) :
  abs (SIGN a b) = abs a /\
  (number b = false -> SIGN a b = (- abs a)%float) /\
  SIGN a (-0)%float = abs a.
Proof.
  unfold SIGN, number. split_and!.
  - destruct (0 <=? b)%float; [apply abs_abs|]. by rewrite abs_opp, abs_abs.
  - intros Hb%nan_spec. rewrite leb_spec, Hb. unfold SFleb.
    by destruct (Prim2SF 0) as [[]|[]| |[] ? ?].
  - done.
Qed.

(** ** Sorting *)

Lemma Forall_sort_insert (P : double -> Prop) x l :
  P x -> Forall P l -> Forall P (sort_insert x l).
Proof.
  intros Hx. induction 1 as [|h t Hh Ht IH]; simpl; [by repeat constructor|].
  destruct (x <? h)%float; by repeat constructor.
Qed.

Lemma Forall_thrust_sort (P : double -> Prop) l :
  Forall P l -> Forall P (thrust_sort l).
Proof.
  induction 1 as [|h t Hh Ht IH]; simpl; [done|]. by apply Forall_sort_insert.
Qed.

Lemma ascending_cons a b t :
  ascending (a :: b :: t) = (a <=? b)%float && ascending (b :: t).
Proof. done. Qed.

Lemma ascending_sort_insert_below x h t :
  number x = true -> Forall (fun v => number v = true) (h :: t) ->
  (h <=? x)%float = true -> ascending (h :: t) = true ->
  ascending (h :: sort_insert x t) = true.
Proof.
  intros Hx. revert h. induction t as [|h2 t IH]; intros h Hn Hle Ha.
  - simpl. by rewrite Hle.
  - rewrite ascending_cons in Ha. apply andb_prop in Ha as [Hh Ha].
    apply Forall_cons in Hn as [Hnh Hn]. pose proof Hn as [Hn2 _]%Forall_cons.
    cbn [sort_insert]. destruct (x <? h2)%float eqn:E.
    + rewrite !ascending_cons, Hle, Ha, (ltb_leb _ _ E). done.
    + rewrite ascending_cons, Hh. simpl. apply IH; try done.
      by apply not_ltb_leb.
Qed.

Lemma ascending_sort_insert x l :
  number x = true -> Forall (fun v => number v = true) l ->
  ascending l = true -> ascending (sort_insert x l) = true.
Proof.
  intros Hx Hn Ha. destruct l as [|h t]; [done|].
  cbn [sort_insert]. destruct (x <? h)%float eqn:E.
  - by rewrite ascending_cons, Ha, (ltb_leb _ _ E).
  - apply ascending_sort_insert_below; try done.
    apply Forall_cons in Hn as [Hnh _]. by apply not_ltb_leb.
Qed.

(** Without a NaN among them, [thrust::sort] leaves the doubles in
    ascending order. *)
Lemma ascending_thrust_sort l :
  forallb number l = true -> ascending (thrust_sort l) = true.
Proof.
  intros Hn.
  assert (Hf : Forall (fun v => number v = true) l).
  { induction l as [|h t IH]; [done|].
    simpl in Hn. apply andb_prop in Hn as [Hh Ht]. constructor; auto. }
  clear Hn. induction Hf as [|h t Hh Ht IH]; simpl; [done|].
  apply ascending_sort_insert; try done. by apply Forall_thrust_sort.
Qed.

Lemma ascending_take n l : ascending l = true -> ascending (take n l) = true.
Proof.
  revert n. induction l as [|a t IH]; intros n Ha; [by destruct n|].
  destruct n as [|n]; [done|]. destruct t as [|b t]; [by destruct n|].
  rewrite ascending_cons in Ha. apply andb_prop in Ha as [Hab Ha].
  destruct n as [|n]; [done|].
  change (take (S (S n)) (a :: b :: t)) with (a :: b :: take n t).
  rewrite ascending_cons, Hab. simpl. apply (IH (S n) Ha).
Qed.

(** ** The engine *)



Section Run.
Variables (tqli : solver) (H : hamiltonian) (dim num_Eig : nat).
Implicit Types st : state.

(** With [d_b] at its allocated size a round that goes through has not
    grown anything, whatever the solver, and leaves room for one more
    entry of [d_b]. *)
Lemma lanczos_round_no_growth st st' :
  length (d_b st) = max_Iter st ->
  lanczos_round tqli H dim num_Eig st = Some st' ->
  exists st1,
    lanczos_recurrence H dim st = Some st1 /\
    lanczos_extract tqli num_Eig st1 = Some st' /\
    length (d_b st') = max_Iter st' /\ max_Iter st' = max_Iter st /\
    iter st' = S (iter st) /\ iter st' + 2 <= max_Iter st'.
Proof.
  intros Hb (st1 & st2 & H1 & H2 & ->)%lanczos_round_inv.
  pose proof H1 as (e & b & (_ & _ & _ & Hl & _) & (Hm1 & Hi1 & _)
                    & (_ & Eb & _) & _)%lanczos_recurrence_inv.
  pose proof H2 as (gs & _ & (Hm2 & Hi2 & _ & Eb2 & _) & _)
    %lanczos_extract_inv.
  rewrite lanczos_grow_idle.
  - exists st1. rewrite Eb2, Eb, length_insert, Hm2, Hm1, Hi2, Hi1.
    split_and!; try done. lia.
  - apply not_true_is_false. intros Hg%grows_spec. lia.
Qed.

(** What a round leaves alone in the coefficient arrays and in the
    store: everything the rounds before it have written. *)
Lemma lanczos_round_written st st' :
  lanczos_round tqli H dim num_Eig st = Some st' ->
  iter st' = S (iter st) /\
  (forall i, i <= iter st -> d_a st' !! i = d_a st !! i) /\
  (forall i, i <= iter st + 1 -> d_b st' !! i = d_b st !! i) /\
  (forall j, j < dim * iter st -> d_lanczvec st' !! j = d_lanczvec st !! j).
Proof.
  intros (st1 & st2 & H1 & H2 & ->)%lanczos_round_inv.
  apply lanczos_recurrence_inv in H1
    as (e & b & (_ & _ & Hla & Hlb & _ & _ & Hlv & _) & (_ & Hi1 & _)
        & (Ea & Eb & _ & _ & Ev) & _).
  apply lanczos_extract_inv in H2
    as (gs & _ & (_ & Hi2 & Ea2 & Eb2 & Ev2 & _) & _).
  destruct (lanczos_grow_frame dim st2) as (-> & _).
  replace (S (iter st) - 1) with (iter st) in * by lia.
  split_and!.
  - congruence.
  - intros i Hi.
    destruct (lanczos_grow_lookup dim st2 i) as (Hg & _); [lia|].
    rewrite Hg; rewrite Ea2, Ea, ?length_insert; [|lia].
    apply list_lookup_insert_ne. lia.
  - intros i Hi.
    destruct (lanczos_grow_lookup dim st2 i) as (_ & Hg & _); [lia|].
    rewrite Hg; rewrite Eb2, Eb, ?length_insert; [|lia].
    apply list_lookup_insert_ne. lia.
  - intros j Hj.
    rewrite lanczos_grow_lookup_vec; rewrite ?Ev2, ?Ev, ?Hi2, ?Hi1.
    + rewrite lookup_app_l by (rewrite length_take; lia).
      by apply lookup_take_lt.
    + nia.
    + rewrite !length_app, !length_take, length_drop. lia.
Qed.

(** X10.  Two successive rounds: the estimate [gs_Energy] that a round
    leaves is entry [num_Eig - 1] of [d_ordered], the largest of the
    values it returns, and the next round takes exactly this value as
    [eigtemp]: the test of line 342 compares the [num_Eig]-th value of
    one round with that of the round before. *)
Theorem lanczos_round_compares_with_previous st st1 st2 :
  lanczos_round tqli H dim num_Eig st = Some st1 ->
  lanczos_round tqli H dim num_Eig st1 = Some st2 ->
  d_ordered st1 !! (num_Eig - 1) = Some (gs_Energy st1) /\
  eigtemp st2 = gs_Energy st1.
Proof.
  intros (sa & sb & Ha & Hb & ->)%lanczos_round_inv
         (sc & sd & Hc & Hd & ->)%lanczos_round_inv.
  apply lanczos_extract_inv in Hb
    as (gs & (_ & _ & Hgs) & _ & (_ & Eo & Ep & Eg)).
  apply lanczos_recurrence_inv in Hc
    as (e & b & (He & _) & (_ & _ & _ & _ & _ & Ee) & _).
  apply lanczos_extract_inv in Hd
    as (gs' & _ & (_ & _ & _ & _ & _ & _ & _ & _ & _ & _ & Ee') & _).
  destruct (lanczos_grow_frame dim sb) as (_ & _ & _ & _ & _ & Fo & Fg & _).
  destruct (lanczos_grow_frame dim sd) as (_ & _ & _ & _ & _ & _ & _ & Fe).
  assert (Fp : d_ordered_ptr (lanczos_grow dim sb) = d_ordered_ptr sb).
  { unfold lanczos_grow. by destruct (grows _ _). }
  rewrite Fo, Fp, Eo, Ep in He. rewrite Fo, Fg, Fe, Ee', Ee, Eo, Eg.
  split; [done|]. congruence.
Qed.

Variable conv_req : double.

(** What the rounds preserve holds however the run of the loop ends. *)
Lemma lanczos_loop_invariant (P : state -> Prop) fuel st :
  (forall s s', P s -> lanczos_round tqli H dim num_Eig s = Some s' -> P s') ->
  P st ->
  match lanczos_loop tqli H dim num_Eig conv_req fuel st with
  | Finished s | Unfinished s => P s
  | Overrun => True
  end.
Proof.
  intros Hround. revert st. induction fuel as [|fuel IH]; intros st Hs.
  - simpl. by destruct (continues conv_req st).
  - destruct (continues conv_req st) eqn:Hc.
    + rewrite lanczos_loop_step by done.
      destruct (lanczos_round tqli H dim num_Eig st) as [s1|] eqn:Hr;
        [|done].
      apply IH. by eapply Hround.
    + by rewrite lanczos_loop_finished.
Qed.

(** The entries of [d_b] that are left bound the rounds of the loop. *)
Lemma lanczos_loop_bounded fuel st :
  length (d_b st) = max_Iter st ->
  max_Iter st - 2 - iter st < fuel ->
  lanczos_loop tqli H dim num_Eig conv_req fuel st = Overrun \/
  exists st', lanczos_loop tqli H dim num_Eig conv_req fuel st = Finished st'.
Proof.
  revert st. induction fuel as [|fuel IH]; intros st Hb Hf; [lia|].
  destruct (continues conv_req st) eqn:Hc.
  - rewrite lanczos_loop_step by done.
    destruct (lanczos_round tqli H dim num_Eig st) as [s1|] eqn:Hr;
      [|by left].
    apply lanczos_round_no_growth in Hr as (_ & _ & _ & Hb1 & Hm & Hi & Hle);
      [|done].
    apply IH; [done | lia].
  - right. exists st. by apply lanczos_loop_finished.
Qed.

(** X11.  A NaN ends the loop as if the estimate had converged: when
    [gs_Energy], [eigtemp] or [conv_req] is not a number the comparison
    of line 342 is false, no further round runs, and the state is
    returned as it is. *)
Theorem lanczos_loop_stops_on_nan fuel st :
  number (gs_Energy st) = false \/ number (eigtemp st) = false \/
  number conv_req = false ->
  lanczos_loop tqli H dim num_Eig conv_req fuel st = Finished st.
Proof.
  intros Hn. apply lanczos_loop_finished. revert Hn.
  unfold continues, number. rewrite ltb_spec, abs_spec, sub_spec.
  unfold SFltb.
  intros [Hg%nan_spec|[He%nan_spec|Hc%nan_spec]].
  - rewrite Hg. simpl. by destruct (Prim2SF conv_req) as [[]|[]| |[] ? ?].
  - rewrite He. unfold SF64sub.
    assert (SFsub prec emax (Prim2SF (gs_Energy st)) S754_nan = S754_nan)
      as -> by (by destruct (Prim2SF (gs_Energy st)) as [[]|[]| |[] ? ?]).
    simpl. by destruct (Prim2SF conv_req) as [[]|[]| |[] ? ?].
  - by rewrite Hc.
Qed.

(** X12.  Coefficients are written once.  From any state on, whenever
    the loop is left, the entries [d_a[0 .. iter]] and
    [d_b[0 .. iter+1]] that were there at the start are still there,
    unchanged by the rounds in between and by any growth. *)
Theorem lanczos_coefficients_written_once fuel st st' :
  lanczos_loop tqli H dim num_Eig conv_req fuel st = Finished st' ->
  iter st <= iter st' /\
  (forall i, i <= iter st -> d_a st' !! i = d_a st !! i) /\
  (forall i, i <= iter st + 1 -> d_b st' !! i = d_b st !! i).
Proof.
  intros Hf.
  apply (lanczos_loop_exit _ _ _ _ _
           (fun s => iter st <= iter s /\
                     (forall i, i <= iter st -> d_a s !! i = d_a st !! i) /\
                     (forall i, i <= iter st + 1 -> d_b s !! i = d_b st !! i)))
    in Hf as (_ & Hs); [done| |done].
  intros s s' (Hi & Ha & Hb) (Hi' & Ha' & Hb' & _)%lanczos_round_written.
  split_and!; [lia| |].
  - intros i Hle. rewrite Ha' by lia. by apply Ha.
  - intros i Hle. rewrite Hb' by lia. by apply Hb.
Qed.

(** X13.  Stored basis vectors are not overwritten.  The blocks
    [0 .. iter-1] of [d_lanczvec], which the rounds so far have filled,
    are the same when the loop is left, however many rounds follow. *)
Theorem lanczos_stored_vectors_stay fuel st st' :
  lanczos_loop tqli H dim num_Eig conv_req fuel st = Finished st' ->
  forall j, j < dim * iter st -> d_lanczvec st' !! j = d_lanczvec st !! j.
Proof.
  intros Hf.
  apply (lanczos_loop_exit _ _ _ _ _
           (fun s => iter st <= iter s /\
                     forall j, j < dim * iter st ->
                               d_lanczvec s !! j = d_lanczvec st !! j))
    in Hf as (_ & _ & Hs); [done| |done].
  intros s s' (Hi & Hv) (Hi' & _ & _ & Hv')%lanczos_round_written.
  split; [lia|]. intros j Hj. rewrite Hv' by nia. by apply Hv.
Qed.

End Run.

Lemma lanczos_round_compares_with_previous_witness :
  exists st st1 st2,
    lanczos_init H_well 2 5 1 = Some st /\
    lanczos_round tqli H_well 2 1 st = Some st1 /\
    lanczos_round tqli H_well 2 1 st1 = Some st2 /\
    d_ordered st1 !! (1 - 1) = Some (gs_Energy st1) /\
    eigtemp st2 = gs_Energy st1.
Proof.
  do 3 eexists.
  split; [vm_compute; reflexivity|].
  match goal with
  | |- lanczos_round _ _ _ _ ?s = _ /\ _ => pose (st := s)
  end.
  split; [vm_compute; reflexivity|].
  split; [vm_compute; reflexivity|].
  apply (lanczos_round_compares_with_previous tqli H_well 2 1 st);
    vm_compute; reflexivity.
Defined.

Lemma lanczos_loop_stops_on_nan_witness :
  (number (gs_Energy st_nan) = false \/ number (eigtemp st_nan) = false \/
   number tol = false) /\
  lanczos_loop tqli H_sym 1 1 tol 3 st_nan = Finished st_nan.
Proof.
  split; [left; reflexivity|].
  apply (lanczos_loop_stops_on_nan tqli H_sym 1 1 tol 3 st_nan).
  left. reflexivity.
Defined.

Lemma lanczos_coefficients_written_once_witness :
  exists st st',
    lanczos_init H_well 2 5 1 = Some st /\
    lanczos_loop tqli H_well 2 1 0x1p-3%float 3 st = Finished st' /\
    iter st <= iter st' /\
    (forall i, i <= iter st -> d_a st' !! i = d_a st !! i) /\
    (forall i, i <= iter st + 1 -> d_b st' !! i = d_b st !! i).
Proof.
  do 2 eexists.
  split; [vm_compute; reflexivity|].
  split; [vm_compute; reflexivity|].
  apply (lanczos_coefficients_written_once tqli H_well 2 1 0x1p-3%float 3).
  vm_compute. reflexivity.
Defined.

Lemma lanczos_stored_vectors_stay_witness :
  exists st0 st st',
    lanczos_init H_well 2 5 1 = Some st0 /\
    lanczos_round tqli H_well 2 1 st0 = Some st /\
    lanczos_loop tqli H_well 2 1 0x1p-3%float 2 st = Finished st' /\
    forall j, j < 2 * iter st -> d_lanczvec st' !! j = d_lanczvec st !! j.
Proof.
  do 3 eexists.
  split; [vm_compute; reflexivity|].
  split; [vm_compute; reflexivity|].
  split; [vm_compute; reflexivity|].
  apply (lanczos_stored_vectors_stay tqli H_well 2 1 0x1p-3%float 2).
  vm_compute. reflexivity.
Defined.

(** X14.  The first round of the loop compares with 0: [eigtemp] is
    read from [d_ordered], which the code before the loop has only
    allocated, so [eigtemp] is 0 after the first round and the first
    test of convergence is [|gs_Energy - 0| > conv_req]. *)
Theorem lanczos_first_round_compares_with_zero
    (tqli : solver) (H : hamiltonian) (dim cap k : nat) (st0 st1 : state) :
  lanczos_init H dim cap k = Some st0 ->
  lanczos_round tqli H dim k st0 = Some st1 ->
  eigtemp st1 = 0%float /\
  forall conv_req,
    continues conv_req st1 = (conv_req <? abs (gs_Energy st1 - 0))%float.
Proof.
  intros (_ & (_ & _ & Ho & Hp & _) & _)%lanczos_init_inv
         (sa & sb & Ha & Hb & ->)%lanczos_round_inv.
  apply lanczos_recurrence_inv in Ha
    as (e & b & (He & _) & (_ & _ & _ & _ & _ & Ee) & _).
  apply lanczos_extract_inv in Hb
    as (gs' & _ & (_ & _ & _ & _ & _ & _ & _ & _ & _ & _ & Ee') & _).
  unfold continues.
  destruct (lanczos_grow_frame dim sb) as (_ & _ & _ & _ & _ & _ & _ & ->).
  rewrite Ee', Ee. rewrite Ho, Hp in He.
  by apply lookup_replicate in He as [-> Hk].
Qed.

Lemma lanczos_first_round_compares_with_zero_witness :
  exists st0 st1,
    lanczos_init H_well 2 5 1 = Some st0 /\
    lanczos_round tqli H_well 2 1 st0 = Some st1 /\
    eigtemp st1 = 0%float /\
    forall conv_req,
      continues conv_req st1 = (conv_req <? abs (gs_Energy st1 - 0))%float.
Proof.
  do 2 eexists.
  split; [vm_compute; reflexivity|].
  match goal with
  | |- lanczos_round _ _ _ _ ?s = _ /\ _ => pose (st0 := s)
  end.
  split; [vm_compute; reflexivity|].
  apply (lanczos_first_round_compares_with_zero tqli H_well 2 5 1 st0);
    vm_compute; reflexivity.
Defined.

(** X15.  A call never gets past the capacity it was given.  However
    it ends, short of an overrun, [max_Iter] is the value that was
    passed in, at most [max_Iter - 2] rounds of the loop have run, and
    [d_a], [d_b], [d_offdia] and the store have the sizes of their
    first allocation: the growth of lines 447-457 has not happened. *)
Theorem lanczos_stays_within_capacity
    (tqli : solver) (fuel : nat) (H : hamiltonian) (dim cap k : nat)
    (conv_req : double) (st : state) :
  lanczos tqli fuel H dim cap k conv_req = Finished st \/
  lanczos tqli fuel H dim cap k conv_req = Unfinished st ->
  max_Iter st = cap /\ iter st + 2 <= cap /\
  length (d_a st) = cap /\ length (d_b st) = cap /\
  length (d_offdia st) = cap /\ length (d_lanczvec st) = dim * cap.
Proof.
  unfold lanczos. intros Hf.
  destruct (lanczos_init H dim cap k) as [st0|] eqn:Hi; [|by destruct Hf].
  apply lanczos_init_inv in Hi
    as (Hc & (Hm & Hit & _) & _ & _ & [Ha Hb Hv _ Ho _ _ _]).
  set (P := fun s : state =>
              max_Iter s = cap /\ iter s + 2 <= cap /\
              length (d_a s) = cap /\ length (d_b s) = cap /\
              length (d_offdia s) = cap /\
              length (d_lanczvec s) = dim * cap).
  assert (Hstep : forall s s', P s ->
            lanczos_round tqli H dim k s = Some s' -> P s').
  { unfold P. intros s s' (Em & _ & Ea & Eb & Eo & Ev) Hr.
    apply lanczos_round_no_growth in Hr
      as (s1 & Hr1 & Hr2 & Hb' & Hm' & Hi' & Hle); [|congruence].
    apply lanczos_recurrence_inv in Hr1
      as (e & b & (_ & _ & _ & _ & _ & _ & Hlv & Hl0) & _
          & (Ra & _ & _ & Ro & Rv) & _).
    apply lanczos_extract_inv in Hr2
      as (gs & _ & (_ & _ & Xa & _ & Xv & Xo & _) & _).
    rewrite Xa, Xo, Xv, Ra, Ro, Rv, !length_insert.
    split_and!; try congruence; try lia.
    rewrite !length_app, !length_take, length_drop. lia. }
  assert (Hinit : P st0) by (unfold P; split_and!; try congruence; lia).
  pose proof (lanczos_loop_invariant tqli H dim k conv_req P fuel st0
                Hstep Hinit) as Hinv.
  destruct Hf as [Hf|Hf]; by rewrite Hf in Hinv.
Qed.

Lemma lanczos_stays_within_capacity_witness :
  exists st,
    (lanczos tqli 3 H_well 2 5 1 0x1p-3%float = Finished st \/
     lanczos tqli 3 H_well 2 5 1 0x1p-3%float = Unfinished st) /\
    max_Iter st = 5 /\ iter st + 2 <= 5 /\
    length (d_a st) = 5 /\ length (d_b st) = 5 /\
    length (d_offdia st) = 5 /\ length (d_lanczvec st) = 2 * 5.
Proof.
  eexists. split; [left; vm_compute; reflexivity|].
  apply (lanczos_stays_within_capacity tqli 3 H_well 2 5 1 0x1p-3%float).
  left. vm_compute. reflexivity.
Defined.

(** X16.  Every call ends: with [max_Iter - 1] rounds allowed, and so
    with any number of rounds, the loop has been left through the test
    of convergence or a buffer has been overrun.  The loop body cannot
    run more than [max_Iter - 2] times, since each round fills one more
    entry of [d_b] and the growth comes too late to make room. *)
Theorem lanczos_returns_or_overruns
    (tqli : solver) (fuel : nat) (H : hamiltonian) (dim cap k : nat)
    (conv_req : double) :
  cap - 1 <= fuel ->
  lanczos tqli fuel H dim cap k conv_req = Overrun \/
  exists st, lanczos tqli fuel H dim cap k conv_req = Finished st.
Proof.
  unfold lanczos. intros Hf.
  destruct (lanczos_init H dim cap k) as [st0|] eqn:Hi; [|by left].
  apply lanczos_init_inv in Hi as (Hc & (Hm & Hit & _) & _ & _ & Ha).
  apply lanczos_loop_bounded; [by apply alloc_d_b with dim | lia].
Qed.

Lemma lanczos_returns_or_overruns_witness :
  4 - 1 <= 3 /\
  (lanczos tqli 3 H_neg 2 4 1 tol = Overrun \/
   exists st, lanczos tqli 3 H_neg 2 4 1 tol = Finished st).
Proof.
  split; [lia|].
  apply (lanczos_returns_or_overruns tqli 3 H_neg 2 4 1 tol). lia.
Defined.

(** X17.  What is printed has [num_Eig] entries: whenever a call
    returns, [h_ordered] is a list of exactly [num_Eig] values. *)
Theorem lanczos_prints_num_Eig_values
    (tqli : solver) (fuel : nat) (H : hamiltonian) (dim cap k : nat)
    (conv_req : double) (l : list double) :
  h_ordered (lanczos tqli fuel H dim cap k conv_req) = Some l ->
  length l = k.
Proof.
  unfold lanczos.
  destruct (lanczos_init H dim cap k) as [st0|] eqn:Hi; [|done].
  apply lanczos_init_inv in Hi as (_ & (_ & _ & Ho & _) & _).
  pose proof (lanczos_loop_invariant tqli H dim k conv_req
                (fun s => length (d_ordered s) = k) fuel st0) as Hinv.
  destruct (lanczos_loop _ _ _ _ _ _ _) as [st| |st]; try done.
  intros [= <-]. apply Hinv; [|by rewrite Ho, length_replicate].
  intros s s' Hs (st1 & st2 & H1 & H2 & ->)%lanczos_round_inv.
  destruct (lanczos_grow_frame dim st2) as (_ & _ & _ & _ & _ & -> & _).
  apply lanczos_recurrence_inv in H1 as (e & b & _ & (_ & _ & Eo & _) & _).
  apply lanczos_extract_inv in H2 as (gs & (Hl & _) & _ & (_ & -> & _)).
  rewrite length_app, length_take, length_drop, Eo. lia.
Qed.

Lemma lanczos_prints_num_Eig_values_witness :
  exists l,
    h_ordered (lanczos tqli 1 H_sym 2 4 2 tol) = Some l /\ length l = 2.
Proof.
  eexists. split; [vm_compute; reflexivity|].
  apply (lanczos_prints_num_Eig_values tqli 1 H_sym 2 4 2 tol).
  vm_compute. reflexivity.
Defined.

(** X18.  The extraction of lines 428-441 returns its values in
    ascending order whenever the solver has left no NaN in the buffer:
    [d_diag] is then sorted, and [d_ordered], its first [num_Eig]
    entries, with it. *)
Theorem lanczos_extract_ascending
    (tqli : solver) (k : nat) (st st' : state) :
  lanczos_extract tqli k st = Some st' ->
  length (d_ordered st) = k ->
  forallb number (tqli (d_diag st) (d_offdia st) (iter st + 1)) = true ->
  ascending (d_ordered st') = true /\ ascending (d_diag st') = true.
Proof.
  intros He Hl Hn. rewrite (lanczos_extract_ordered _ _ _ _ He Hl).
  apply lanczos_extract_inv in He as (gs & _ & _ & (-> & _)).
  split; [apply ascending_take|]; by apply ascending_thrust_sort.
Qed.

Lemma lanczos_extract_ascending_witness :
  exists st0 st st',
    lanczos_init H_well 2 5 2 = Some st0 /\
    lanczos_recurrence H_well 2 st0 = Some st /\
    lanczos_extract tqli 2 st = Some st' /\
    length (d_ordered st) = 2 /\
    forallb number (tqli (d_diag st) (d_offdia st) (iter st + 1)) = true /\
    ascending (d_ordered st') = true /\ ascending (d_diag st') = true.
Proof.
  do 3 eexists.
  split; [vm_compute; reflexivity|].
  split; [vm_compute; reflexivity|].
  match goal with
  | |- lanczos_extract _ _ ?s = _ /\ _ => pose (st := s)
  end.
  split; [vm_compute; reflexivity|].
  split; [vm_compute; reflexivity|].
  split; [vm_compute; reflexivity|].
  apply (lanczos_extract_ascending tqli 2 st); vm_compute; reflexivity.
Defined.

Lemma lanczos_init_store H dim cap k st :
  lanczos_init H dim cap k = Some st ->
  d_lanczvec st = replicate (dim * cap) czero.
Proof.
  unfold lanczos_init. intros Hi.
  repeat (apply bind_Some in Hi as (? & _ & Hi)). by injection Hi as <-.
Qed.

(** X19.  The store begins with the starting vector.  When a call
    returns after at least one round of the loop, the first [dim]
    entries of [d_lanczvec] are [1 + 0i]: the vector of ones of lines
    183-188, as it was built (its norm is [sqrt dim], not 1).  When it
    returns after no round, the store is as it was allocated. *)
Theorem lanczos_store_begins_with_start_vector
    (tqli : solver) (fuel : nat) (H : hamiltonian) (dim cap k : nat)
    (conv_req : double) (st : state) :
  lanczos tqli fuel H dim cap k conv_req = Finished st ->
  (iter st = 0 -> d_lanczvec st = replicate (dim * cap) czero) /\
  (1 <= iter st ->
   forall j, j < dim ->
             d_lanczvec st !! j = Some (make_cuDoubleComplex 1%float 0%float)).
Proof.
  unfold lanczos. intros Hf.
  destruct (lanczos_init H dim cap k) as [st0|] eqn:Hi; [|done].
  pose proof (lanczos_init_store _ _ _ _ _ Hi) as Hs.
  apply lanczos_init_inv in Hi as (_ & (_ & Hit & _) & (Hv0 & _) & _).
  apply (lanczos_loop_exit _ _ _ _ _
           (fun s =>
              (iter s = 0 /\
               v0 s = replicate dim (make_cuDoubleComplex 1%float 0%float) /\
               d_lanczvec s = replicate (dim * cap) czero) \/
              (1 <= iter s /\
               forall j, j < dim ->
                 d_lanczvec s !! j
                 = Some (make_cuDoubleComplex 1%float 0%float)))) in Hf
    as (_ & [(E0 & _ & Es)|(E1 & Es)]); [split; [done | lia] | split; [lia | done] | | by left].
  intros s s' [(E0 & Ev & _)|(E1 & Es)] Hr; right.
  - apply lanczos_round_vectors in Hr
      as (b & _ & Hi' & _ & _ & _ & _ & _ & Hst).
    split; [lia|]. intros j Hj. specialize (Hst j Hj).
    rewrite E0, Nat.mul_0_r in Hst. simpl in Hst. rewrite Hst, Ev.
    by apply lookup_replicate_2.
  - apply lanczos_round_written in Hr as (Hi' & _ & _ & Hst).
    split; [lia|]. intros j Hj. rewrite Hst by nia. by apply Es.
Qed.

Lemma lanczos_store_begins_with_start_vector_witness :
  exists st,
    lanczos tqli 3 H_well 2 5 1 0x1p-3%float = Finished st /\
    (iter st = 0 -> d_lanczvec st = replicate (2 * 5) czero) /\
    (1 <= iter st ->
     forall j, j < 2 ->
               d_lanczvec st !! j
               = Some (make_cuDoubleComplex 1%float 0%float)).
Proof.
  eexists. split; [vm_compute; reflexivity|].
  apply (lanczos_store_begins_with_start_vector
           tqli 3 H_well 2 5 1 0x1p-3%float).
  vm_compute. reflexivity.
Defined.

(** X20.  The off-diagonal that [tqli] is handed never holds [beta_1].
    However a call ends, short of an overrun, [d_offdia[0]] and
    [d_offdia[1]] are 0, as the allocation left them, and from index 2
    up to [iter + 1] the entries are the real parts of [d_b]: the loop
    stores [d_offdia[iter + 1]] with [iter >= 1] only, so [d_b[1]], the
    entry that couples the first two rows, is never copied. *)
Theorem lanczos_offdiagonal_skips_beta_1
    (tqli : solver) (fuel : nat) (H : hamiltonian) (dim cap k : nat)
    (conv_req : double) (st : state) :
  lanczos tqli fuel H dim cap k conv_req = Finished st \/
  lanczos tqli fuel H dim cap k conv_req = Unfinished st ->
  d_offdia st !! 0 = Some 0%float /\
  d_offdia st !! 1 = Some 0%float /\
  (forall i, 2 <= i <= iter st + 1 ->
             d_offdia st !! i = cuCreal <$> d_b st !! i).
Proof.
  unfold lanczos. intros Hf.
  destruct (lanczos_init H dim cap k) as [st0|] eqn:Hi; [|by destruct Hf].
  apply lanczos_init_inv in Hi
    as (Hc & (Hm & Hit & _) & (_ & _ & _ & Eo) & _ & Ha).
  set (P := fun s : state =>
              length (d_b s) = max_Iter s /\
              d_offdia s !! 0 = Some 0%float /\
              d_offdia s !! 1 = Some 0%float /\
              (forall i, 2 <= i <= iter s + 1 ->
                         d_offdia s !! i = cuCreal <$> d_b s !! i)).
  assert (Hstep : forall s s', P s ->
            lanczos_round tqli H dim k s = Some s' -> P s').
  { unfold P. intros s s' (Hb & H0 & H1 & Hk) Hr.
    apply lanczos_round_no_growth in Hr
      as (s1 & Hr1 & Hr2 & Hb' & _ & Hi' & _); [|done].
    apply lanczos_recurrence_inv in Hr1
      as (e & b & (_ & _ & _ & Hlb & _ & Hlo & _) & (_ & Hi1 & _)
          & (_ & Eb & _ & Eod & _) & _).
    apply lanczos_extract_inv in Hr2
      as (gs & _ & (_ & _ & _ & Eb2 & _ & Eo2 & _) & _).
    split; [done|]. rewrite Eo2, Eod, Eb2, Eb, Hi'.
    split_and!.
    - rewrite list_lookup_insert_ne by lia. done.
    - rewrite list_lookup_insert_ne by lia. done.
    - intros i Hle. destruct (decide (i = S (iter s) + 1)) as [->|Hne].
      + rewrite !list_lookup_insert_eq by lia. done.
      + rewrite !list_lookup_insert_ne by lia. apply Hk. lia. }
  assert (Hinit : P st0).
  { unfold P. rewrite Eo, Hit. split_and!.
    - by apply alloc_d_b with dim.
    - apply lookup_replicate_2. lia.
    - apply lookup_replicate_2. lia.
    - intros i Hle. lia. }
  pose proof (lanczos_loop_invariant tqli H dim k conv_req P fuel st0
                Hstep Hinit) as Hinv.
  destruct Hf as [Hf|Hf]; rewrite Hf in Hinv; by destruct Hinv as (_ & ?).
Qed.

Lemma lanczos_offdiagonal_skips_beta_1_witness :
  exists st,
    (lanczos tqli 3 H_well 2 5 1 0x1p-3%float = Finished st \/
     lanczos tqli 3 H_well 2 5 1 0x1p-3%float = Unfinished st) /\
    d_offdia st !! 0 = Some 0%float /\
    d_offdia st !! 1 = Some 0%float /\
    (forall i, 2 <= i <= iter st + 1 ->
               d_offdia st !! i = cuCreal <$> d_b st !! i).
Proof.
  eexists. split; [left; vm_compute; reflexivity|].
  apply (lanczos_offdiagonal_skips_beta_1 tqli 3 H_well 2 5 1 0x1p-3%float).
  left. vm_compute. reflexivity.
Defined.
